(** * WavesGUI: the [storage] service (src/modules/utils/services/Storage.js)

    A shallow embedding of the key/value persistence wrapper and of its
    start-up migration runner.  The service is followed on the
    [localStorage] backend (the branch [WavesApp.isWeb()] of the source;
    the native store and the in-memory shim installed when it is
    unavailable have the same [getItem], [setItem] and [clear]).  The
    store the service starts from is the one left by the last session,
    with the probe key written when the module is loaded. *)

From Stdlib Require Import ZArith NArith Ascii String List Bool Lia.
From Stdlib Require Import Decimal DecimalFacts DecimalN.
From Stdlib Require Import Sorting.Sorted Sorting.Permutation.
From stdpp Require Import base option list strings gmap.

Local Open Scope Z_scope.
Local Open Scope list_scope.

(** ** Outcomes

    [Ok] is a normal return (a fulfilled promise), [Throw] a JavaScript
    exception (a rejected promise).  [Unmodelled] marks an input on which
    the embedding does not say what the program does (a number that is not
    a safe integer, a code unit above U+00FF, a collaborator the source
    does not contain called outside what is known of it). *)

Inductive result (A : Type) : Type :=
  | Ok (a : A)
  | Throw
  | Unmodelled.

Arguments Ok {A} a.
Arguments Throw {A}.
Arguments Unmodelled {A}.

Definition rbind {A B} (k : A -> result B) (r : result A) : result B :=
  match r with
  | Ok a => k a
  | Throw => Throw
  | Unmodelled => Unmodelled
  end.

#[global] Instance result_ret : MRet result := @Ok.
#[global] Instance result_bind : MBind result := @rbind.

(** ** JavaScript values

    The values that can be stored, loaded and migrated: the primitives and
    the trees built from arrays and plain objects.  A string is a sequence
    of code units below 256; a number is an integer, [NaN] or an infinity.
    An object is the list of its own properties in insertion order. *)

Module JS.

Inductive number : Type :=
  | NInt (z : Z)
  | NNaN
  | NInf (negative : bool).

Unset Elimination Schemes.
Inductive value : Type :=
  | VUndefined
  | VNull
  | VBool (b : bool)
  | VNum (n : number)
  | VStr (s : string)
  | VArr (elems : list value)
  | VObj (props : list (string * value)).
Set Elimination Schemes.

Section value_induction.
Variable P : value -> Prop.
Hypothesis Hundef : P VUndefined.
Hypothesis Hnull : P VNull.
Hypothesis Hbool : forall b, P (VBool b).
Hypothesis Hnum : forall n, P (VNum n).
Hypothesis Hstr : forall s, P (VStr s).
Hypothesis Harr : forall l, Forall P l -> P (VArr l).
Hypothesis Hobj : forall l, Forall (fun kv => P (snd kv)) l -> P (VObj l).

Fixpoint value_ind (v : value) : P v :=
  match v with
  | VUndefined => Hundef
  | VNull => Hnull
  | VBool b => Hbool b
  | VNum n => Hnum n
  | VStr s => Hstr s
  | VArr l =>
      Harr l ((fix go (l : list value) : Forall P l :=
                 match l with
                 | [] => @List.Forall_nil _ P
                 | x :: r => @List.Forall_cons _ P x r (value_ind x) (go r)
                 end) l)
  | VObj l =>
      Hobj l ((fix go (l : list (string * value))
                 : Forall (fun kv => P (snd kv)) l :=
                 match l with
                 | [] => @List.Forall_nil _ _
                 | kv :: r =>
                     @List.Forall_cons _ (fun kv => P (snd kv)) kv r
                       (value_ind (snd kv)) (go r)
                 end) l)
  end.
End value_induction.

(** [typeof], restricted to the values of the model. *)
Inductive type_tag : Type :=
  | TUndefined | TObject | TBoolean | TNumber | TString.

Definition typeof (v : value) : type_tag :=
  match v with
  | VUndefined => TUndefined
  | VNull => TObject
  | VBool _ => TBoolean
  | VNum _ => TNumber
  | VStr _ => TString
  | VArr _ => TObject
  | VObj _ => TObject
  end.

(** [ToBoolean]: what [if (x)], [!x], [x || y] and [x && y] test. *)
Definition truthy (v : value) : bool :=
  match v with
  | VUndefined | VNull => false
  | VBool b => b
  | VNum (NInt z) => negb (z =? 0)
  | VNum NNaN => false
  | VNum (NInf _) => true
  | VStr s => negb (String.eqb s EmptyString)
  | VArr _ | VObj _ => true
  end.

(** The integers a JavaScript number holds exactly. *)
Definition MAX_SAFE_INTEGER : Z := 9007199254740991.

Definition safe_integer (z : Z) : bool :=
  (- MAX_SAFE_INTEGER <=? z) && (z <=? MAX_SAFE_INTEGER).

(** *** Decimal digits *)

Definition chars (s : string) : list ascii := list_ascii_of_string s.

Fixpoint uint_chars (u : Decimal.uint) : list ascii :=
  match u with
  | Nil => []
  | D0 u => "0"%char :: uint_chars u
  | D1 u => "1"%char :: uint_chars u
  | D2 u => "2"%char :: uint_chars u
  | D3 u => "3"%char :: uint_chars u
  | D4 u => "4"%char :: uint_chars u
  | D5 u => "5"%char :: uint_chars u
  | D6 u => "6"%char :: uint_chars u
  | D7 u => "7"%char :: uint_chars u
  | D8 u => "8"%char :: uint_chars u
  | D9 u => "9"%char :: uint_chars u
  end.

Definition integer_chars (z : Z) : list ascii :=
  match z with
  | Z0 => ["0"%char]
  | Zpos p => uint_chars (Pos.to_uint p)
  | Zneg p => "-"%char :: uint_chars (Pos.to_uint p)
  end.

Definition number_chars (n : number) : list ascii :=
  match n with
  | NInt z => integer_chars z
  | NNaN => chars "NaN"
  | NInf false => chars "Infinity"
  | NInf true => chars "-Infinity"
  end.

(** *** [String(v)] *)

Fixpoint join_strings (sep : string) (l : list string) : string :=
  match l with
  | [] => EmptyString
  | [s] => s
  | s :: r => (s ++ sep ++ join_strings sep r)%string
  end.

Fixpoint ToString (v : value) : string :=
  match v with
  | VUndefined => "undefined"
  | VNull => "null"
  | VBool true => "true"
  | VBool false => "false"
  | VNum n => string_of_list_ascii (number_chars n)
  | VStr s => s
  | VArr l =>
      join_strings ","
        (map (fun e => match e with
                       | VUndefined | VNull => EmptyString
                       | _ => ToString e
                       end) l)
  | VObj _ => "[object Object]"
  end.

(** *** Own properties *)

Fixpoint get_own (props : list (string * value)) (name : string)
  : option value :=
  match props with
  | [] => None
  | (k, v) :: r => if String.eqb k name then Some v else get_own r name
  end.

(** [obj[name] = v]: an existing property keeps its place. *)
Fixpoint set_own (props : list (string * value)) (name : string) (v : value)
  : list (string * value) :=
  match props with
  | [] => [(name, v)]
  | (k, w) :: r =>
      if String.eqb k name then (k, v) :: r else (k, w) :: set_own r name v
  end.

(** [v.name] for a [name] that no prototype defines and that is neither
    ["length"] nor an index: reading it off [undefined] or [null] throws
    a TypeError; primitives and arrays do not have it. *)
Definition get_prop (v : value) (name : string) : result value :=
  match v with
  | VUndefined | VNull => Throw
  | VObj props =>
      match get_own props name with
      | Some w => Ok w
      | None => Ok VUndefined
      end
  | _ => Ok VUndefined
  end.

(** [obj.name = w] on a plain object. *)
Definition set_prop (v : value) (name : string) (w : value) : value :=
  match v with
  | VObj props => VObj (set_own props name w)
  | _ => v
  end.

(** A parameter with a default: the default replaces [undefined] only. *)
Definition default_arg (v default : value) : value :=
  match v with
  | VUndefined => default
  | _ => v
  end.

(** The receiver of [map] and [forEach]: on anything but an array the
    call is a TypeError. *)
Definition as_array (v : value) : result (list value) :=
  match v with
  | VArr l => Ok l
  | _ => Throw
  end.

Fixpoint string_includes (s pattern : string) : bool :=
  String.prefix pattern s ||
  match s with
  | String _ r => string_includes r pattern
  | EmptyString => false
  end.

(** [v.includes(x)] for a string [x], on a truthy [v]: arrays and strings
    have the method. *)
Definition includes (v : value) (x : string) : result bool :=
  match v with
  | VArr l =>
      Ok (existsb (fun e => match e with
                            | VStr s => String.eqb s x
                            | _ => false
                            end) l)
  | VStr s => Ok (string_includes s x)
  | _ => Throw
  end.

(** [v.push(x)]: only arrays have the method. *)
Definition push (v x : value) : result value :=
  match v with
  | VArr l => Ok (VArr (l ++ [x]))
  | _ => Throw
  end.

End JS.

(** ** JSON text

    [JSON.stringify] and [JSON.parse] of the language, on the values of
    [JS].  Text is a list of code units. *)

Module JSON.
Import JS.

Definition dquote : ascii := ascii_of_N 34.
Definition backslash : ascii := ascii_of_N 92.

(** *** Serialisation *)

Definition hex_char (n : N) : ascii :=
  if (n <? 10)%N then ascii_of_N (48 + n) else ascii_of_N (87 + n).

(** QuoteJSONString, one code unit at a time. *)
Definition quote_char (c : ascii) : list ascii :=
  let n := N_of_ascii c in
  if (n =? 34)%N then [backslash; dquote]
  else if (n =? 92)%N then [backslash; backslash]
  else if (n =? 8)%N then [backslash; "b"%char]
  else if (n =? 9)%N then [backslash; "t"%char]
  else if (n =? 10)%N then [backslash; "n"%char]
  else if (n =? 12)%N then [backslash; "f"%char]
  else if (n =? 13)%N then [backslash; "r"%char]
  else if (n <? 32)%N then
    [backslash; "u"%char; "0"%char; "0"%char;
     hex_char (n / 16); hex_char (n mod 16)]
  else [c].

Definition quote (s : string) : list ascii :=
  dquote :: flat_map quote_char (chars s) ++ [dquote].

Definition sep (first : bool) : list ascii :=
  if first then [] else [","%char].

(** The elements of an array, comma separated. *)
Definition print_elems (print : value -> list ascii)
  : list value -> bool -> list ascii :=
  fix go (l : list value) (first : bool) : list ascii :=
    match l with
    | [] => []
    | x :: r => sep first ++ print x ++ go r false
    end.

(** The members of an object; a property whose value is [undefined] is
    left out. *)
Definition print_members (print : value -> list ascii)
  : list (string * value) -> bool -> list ascii :=
  fix go (l : list (string * value)) (first : bool) : list ascii :=
    match l with
    | [] => []
    | (k, VUndefined) :: r => go r first
    | (k, v) :: r =>
        sep first ++ quote k ++ ":"%char :: print v ++ go r false
    end.

(** SerializeJSONProperty with no indentation: [undefined] in an array
    slot and the numbers that are not finite become [null]. *)
Fixpoint print (v : value) : list ascii :=
  match v with
  | VUndefined => chars "null"
  | VNull => chars "null"
  | VBool true => chars "true"
  | VBool false => chars "false"
  | VNum (NInt z) => integer_chars z
  | VNum _ => chars "null"
  | VStr s => quote s
  | VArr l => "["%char :: print_elems print l true ++ ["]"%char]
  | VObj l => "{"%char :: print_members print l true ++ ["}"%char]
  end.

(** [JSON.stringify(v)]: a string, or [undefined] for [undefined]. *)
Definition stringify (v : value) : value :=
  match v with
  | VUndefined => VUndefined
  | _ => VStr (string_of_list_ascii (print v))
  end.

(** *** Parsing *)

Definition is_ws (c : ascii) : bool :=
  let n := N_of_ascii c in
  (n =? 32)%N || (n =? 9)%N || (n =? 10)%N || (n =? 13)%N.

Fixpoint skip_ws (s : list ascii) : list ascii :=
  match s with
  | c :: r => if is_ws c then skip_ws r else s
  | [] => []
  end.

Definition digit_of (c : ascii) : option (Decimal.uint -> Decimal.uint) :=
  match N_of_ascii c with
  | 48%N => Some D0 | 49%N => Some D1 | 50%N => Some D2 | 51%N => Some D3
  | 52%N => Some D4 | 53%N => Some D5 | 54%N => Some D6 | 55%N => Some D7
  | 56%N => Some D8 | 57%N => Some D9
  | _ => None
  end.

Fixpoint read_digits (s : list ascii) : Decimal.uint * list ascii :=
  match s with
  | [] => (Nil, [])
  | c :: r =>
      match digit_of c with
      | Some d => let '(u, r') := read_digits r in (d u, r')
      | None => (Nil, s)
      end
  end.

(** What the parser hands back: the value read, the text left, and
    whether the value is exactly the one JavaScript builds ([false] after
    a number with a fraction or an exponent, or beyond the safe integers,
    and after an escape above U+00FF). *)
Definition parsed (A : Type) : Type := (A * list ascii * bool)%type.

(** frac = "." 1*DIGIT *)
Definition parse_fraction (s : list ascii) : result (bool * list ascii) :=
  match s with
  | c :: r =>
      if (N_of_ascii c =? 46)%N then
        match read_digits r with
        | (Nil, _) => Throw
        | (_, r') => Ok (true, r')
        end
      else Ok (false, s)
  | [] => Ok (false, s)
  end.

Definition skip_sign (s : list ascii) : list ascii :=
  match s with
  | c :: r =>
      let n := N_of_ascii c in
      if (n =? 43)%N || (n =? 45)%N then r else s
  | [] => s
  end.

(** exp = ("e" / "E") ["+" / "-"] 1*DIGIT *)
Definition parse_exponent (s : list ascii) : result (bool * list ascii) :=
  match s with
  | c :: r =>
      let n := N_of_ascii c in
      if (n =? 101)%N || (n =? 69)%N then
        match read_digits (skip_sign r) with
        | (Nil, _) => Throw
        | (_, r') => Ok (true, r')
        end
      else Ok (false, s)
  | [] => Ok (false, s)
  end.

Definition finish_number (negative : bool) (u : Decimal.uint)
    (r : list ascii) : result (parsed value) :=
  '(frac, r1) ← parse_fraction r;
  '(exp, r2) ← parse_exponent r1;
  let z := Z.of_N (N.of_uint u) in
  let z := if negative then - z else z in
  Ok (VNum (NInt z), r2, negb frac && negb exp && safe_integer z).

(** number = [-] int [frac] [exp]; int has no leading zero. *)
Definition parse_number (s : list ascii) : result (parsed value) :=
  let '(negative, s1) :=
    match s with
    | c :: r => if (N_of_ascii c =? 45)%N then (true, r) else (false, s)
    | [] => (false, s)
    end in
  let '(u, r) := read_digits s1 in
  match u with
  | Nil => Throw
  | D0 Nil => finish_number negative u r
  | D0 _ => Throw
  | _ => finish_number negative u r
  end.

Definition hex_val (c : ascii) : option N :=
  let n := N_of_ascii c in
  if (48 <=? n)%N && (n <=? 57)%N then Some (n - 48)%N
  else if (97 <=? n)%N && (n <=? 102)%N then Some (n - 87)%N
  else if (65 <=? n)%N && (n <=? 70)%N then Some (n - 55)%N
  else None.

Definition hex4 (a b c d : ascii) : option N :=
  a ← hex_val a; b ← hex_val b; c ← hex_val c; d ← hex_val d;
  Some (((a * 16 + b) * 16 + c) * 16 + d)%N.

Definition simple_escape (c : ascii) : option ascii :=
  let n := N_of_ascii c in
  if (n =? 34)%N then Some dquote
  else if (n =? 92)%N then Some backslash
  else if (n =? 47)%N then Some "/"%char
  else if (n =? 98)%N then Some (ascii_of_N 8)
  else if (n =? 102)%N then Some (ascii_of_N 12)
  else if (n =? 110)%N then Some (ascii_of_N 10)
  else if (n =? 114)%N then Some (ascii_of_N 13)
  else if (n =? 116)%N then Some (ascii_of_N 9)
  else None.

Definition push_char (c : ascii) (exact : bool)
    (r : result (parsed (list ascii))) : result (parsed (list ascii)) :=
  '(str, rest, e) ← r; Ok (c :: str, rest, exact && e).

(** The characters of a string literal, after its opening quote. *)
Fixpoint parse_chars (s : list ascii) : result (parsed (list ascii)) :=
  match s with
  | [] => Throw
  | c :: r =>
      let n := N_of_ascii c in
      if (n =? 34)%N then Ok ([], r, true)
      else if (n =? 92)%N then
        match r with
        | [] => Throw
        | e :: r1 =>
            if (N_of_ascii e =? 117)%N then
              match r1 with
              | h1 :: h2 :: h3 :: h4 :: r2 =>
                  match hex4 h1 h2 h3 h4 with
                  | Some u =>
                      push_char (ascii_of_N (u mod 256)) (u <? 256)%N
                        (parse_chars r2)
                  | None => Throw
                  end
              | _ => Throw
              end
            else
              match simple_escape e with
              | Some x => push_char x true (parse_chars r1)
              | None => Throw
              end
        end
      else if (n <? 32)%N then Throw
      else push_char c true (parse_chars r)
  end.

Fixpoint strip_prefix (p s : list ascii) : option (list ascii) :=
  match p, s with
  | [], _ => Some s
  | a :: p', b :: s' => if Ascii.eqb a b then strip_prefix p' s' else None
  | _ :: _, [] => None
  end.

Definition parse_literal (word : string) (v : value) (s : list ascii)
  : result (parsed value) :=
  match strip_prefix (chars word) s with
  | Some r => Ok (v, r, true)
  | None => Throw
  end.

(** The parser proper.  [fuel] bounds the number of values still to be
    read; running out of it is reported as [Unmodelled], and [parse_text]
    below starts with more than any text needs. *)
Fixpoint parse_value (fuel : nat) (s : list ascii)
  : result (parsed value) :=
  match fuel with
  | O => Unmodelled
  | S fuel =>
      match skip_ws s with
      | [] => Throw
      | c :: r =>
          let n := N_of_ascii c in
          if (n =? 34)%N then
            '(str, r', e) ← parse_chars r;
            Ok (VStr (string_of_list_ascii str), r', e)
          else if (n =? 91)%N then
            match skip_ws r with
            | c' :: r' =>
                if (N_of_ascii c' =? 93)%N then Ok (VArr [], r', true)
                else
                  '(l, r'', e) ← parse_elems fuel (c' :: r');
                  Ok (VArr l, r'', e)
            | [] => Throw
            end
          else if (n =? 123)%N then
            match skip_ws r with
            | c' :: r' =>
                if (N_of_ascii c' =? 125)%N then Ok (VObj [], r', true)
                else
                  '(l, r'', e) ← parse_members fuel (c' :: r') [];
                  Ok (VObj l, r'', e)
            | [] => Throw
            end
          else if (n =? 116)%N then parse_literal "rue" (VBool true) r
          else if (n =? 102)%N then parse_literal "alse" (VBool false) r
          else if (n =? 110)%N then parse_literal "ull" VNull r
          else parse_number (c :: r)
      end
  end

with parse_elems (fuel : nat) (s : list ascii)
  : result (parsed (list value)) :=
  match fuel with
  | O => Unmodelled
  | S fuel =>
      '(v, r, e) ← parse_value fuel s;
      match skip_ws r with
      | c :: r' =>
          let n := N_of_ascii c in
          if (n =? 44)%N then
            '(l, r'', e') ← parse_elems fuel r'; Ok (v :: l, r'', e && e')
          else if (n =? 93)%N then Ok ([v], r', e)
          else Throw
      | [] => Throw
      end
  end

with parse_members (fuel : nat) (s : list ascii)
    (acc : list (string * value))
  : result (parsed (list (string * value))) :=
  match fuel with
  | O => Unmodelled
  | S fuel =>
      match skip_ws s with
      | c :: r =>
          if (N_of_ascii c =? 34)%N then
            '(key, r1, e1) ← parse_chars r;
            match skip_ws r1 with
            | c1 :: r2 =>
                if (N_of_ascii c1 =? 58)%N then
                  '(v, r3, e2) ← parse_value fuel r2;
                  let acc' := set_own acc (string_of_list_ascii key) v in
                  match skip_ws r3 with
                  | c2 :: r4 =>
                      let n := N_of_ascii c2 in
                      if (n =? 44)%N then
                        '(l, r5, e3) ← parse_members fuel r4 acc';
                        Ok (l, r5, e1 && e2 && e3)
                      else if (n =? 125)%N then Ok (acc', r4, e1 && e2)
                      else Throw
                  | [] => Throw
                  end
                else Throw
            | [] => Throw
            end
          else Throw
      | [] => Throw
      end
  end.

(** A whole text: one value, then nothing but white space.  A text that
    is not JSON is a SyntaxError whatever it holds. *)
Definition parse_text (s : list ascii) : result value :=
  '(v, r, exact) ← parse_value (S (length s)) s;
  match skip_ws r with
  | [] => if (exact : bool) then Ok v else Unmodelled
  | _ :: _ => Throw
  end.

(** [JSON.parse(text)]: the argument is first converted with
    [String]. *)
Definition parse (text : value) : result value :=
  parse_text (chars (ToString text)).

End JSON.


(** ** The backing store and the promises over it *)

(** [localStorage] (or the shim standing in for it): string keys, string
    values. *)
Module LocalStorage.
Import JS.

Definition getItem (name : string) (data : gmap string string) : value :=
  match data !! name with
  | Some s => VStr s
  | None => VNull
  end.

Definition setItem (name : string) (v : value) (data : gmap string string)
  : gmap string string :=
  <[name := ToString v]> data.

Definition removeItem (name : string) (data : gmap string string)
  : gmap string string :=
  delete name data.

Definition clear (data : gmap string string) : gmap string string := ∅.

End LocalStorage.

(** What happens, in order: the calls that change the store, the
    settlement of the readiness deferred, and the start and the end of
    every migration step. *)
Inductive event : Type :=
  | EvSetItem (key text : string)
  | EvClear
  | EvStepBegin (version : string)
  | EvStepDone (version : string)
  | EvStepFailed (version : string)
  | EvResolve (v : JS.value).

(** The state the service works on: the store, the deferred behind
    [onReady] ([None] while pending), [state.lastOpenVersion], and the
    events so far, oldest first. *)
Record world : Type := World {
  localStorage : gmap string string;
  isNewDefer : option JS.value;
  lastOpenVersion : option JS.value;
  trace : list event
}.

Definition set_store (f : gmap string string -> gmap string string)
    (w : world) : world :=
  World (f (localStorage w)) (isNewDefer w) (lastOpenVersion w) (trace w).

Definition record (e : event) (w : world) : world :=
  World (localStorage w) (isNewDefer w) (lastOpenVersion w) (trace w ++ [e]).

(** A promise-returning computation: run on a world, it settles ([Ok]:
    fulfilled, [Throw]: rejected) and leaves a world. *)
Definition async (A : Type) : Type := world -> result A * world.

Definition async_ret {A} (a : A) : async A := fun w => (Ok a, w).

Definition async_bind {A B} (k : A -> async B) (m : async A) : async B :=
  fun w =>
    match m w with
    | (Ok a, w') => k a w'
    | (Throw, w') => (Throw, w')
    | (Unmodelled, w') => (Unmodelled, w')
    end.

#[global] Instance async_mret : MRet async := @async_ret.
#[global] Instance async_mbind : MBind async := @async_bind.

(** A synchronous computation inside a [then] callback: an exception
    rejects the promise the callback returns. *)
Definition lift {A} (r : result A) : async A := fun w => (r, w).

Fixpoint traverse {A B} (f : A -> result B) (l : list A) : result (list B) :=
  match l with
  | [] => Ok []
  | x :: r => y ← f x; ys ← traverse f r; Ok (y :: ys)
  end.

(** ** [read], [write], [clear] (lines 43-58) *)

Module Adapter.
Import JS.

Definition read (key : string) : async value :=
  fun w =>
    let data := LocalStorage.getItem key (localStorage w) in
    match JSON.parse data with
    | Ok v => (Ok v, w)
    | Throw => (Ok data, w)
    | Unmodelled => (Unmodelled, w)
    end.

Definition write (key : string) (v : value) : async unit :=
  fun w =>
    (Ok tt,
     record (EvSetItem key (ToString v))
       (set_store (LocalStorage.setItem key v) w)).

Definition clear : async unit :=
  fun w => (Ok tt, record EvClear (set_store LocalStorage.clear w)).

End Adapter.

(** ** [read], [write], [clear] outside the browser (lines 60-74)

    The host shell's [WebStorage] is not among the sources; its three
    operations are taken as they come. *)

Module Bridge.
Import JS.

Section bridge.
Variable readStorage : string -> async value.
Variable writeStorage : string -> value -> async unit.
Variable clearStorage : async unit.

Definition read (key : string) : async value :=
  res ← readStorage key;
  ((fun w =>
      match JSON.parse res with
      | Ok v => (Ok v, w)
      | Throw => (Ok res, w)
      | Unmodelled => (Unmodelled, w)
      end) : async value).

Definition write (key : string) (v : value) : async unit :=
  writeStorage key v.

Definition clear : async unit := clearStorage.

End bridge.
End Bridge.

(** ** Collaborators of the service that the sources do not contain *)

(** Modelled from the spec: [utils.when] of the [utils] service, which is
    missing.  The spec has [save], [load] and [clear] pass the adapter's
    promise through, so [when] hands on the promise it is given. *)
Definition when {A} (p : async A) : async A := p.

(** Modelled from the spec: [utils.chainCall], missing like [when].  The
    step functions are called one at a time, each after the promise of the
    one before is fulfilled; a rejection ends the chain and rejects the
    promise [chainCall] returned. *)
Fixpoint chainCall (functionList : list (async unit)) : async unit :=
  match functionList with
  | [] => mret tt
  | f :: rest => _ ← f; chainCall rest
  end.

(** [$q.defer().resolve(v)]: the first call settles the promise. *)
Definition resolve (v : JS.value) : async unit :=
  fun w =>
    (Ok tt,
     record (EvResolve v)
       (World (localStorage w)
              (match isNewDefer w with Some x => Some x | None => Some v end)
              (lastOpenVersion w) (trace w))).

(** ** The [migration] service

    Modelled from the spec: [migration.migrateFrom], whose source is
    missing.  The spec calls it a semantic-version comparison: of the
    registered keys it returns those strictly newer than the stored
    version, in ascending order.  Versions are read and ordered as
    Semantic Versioning 2.0.0 has it (a pre-release is older than its
    release; build metadata does not count). *)

Module Migration.
Import JS.

Inductive identifier : Type :=
  | Numeric (n : N)
  | Alphanumeric (s : string).

Record semver : Type := SemVer {
  major : N;
  minor : N;
  patch : N;
  prerelease : list identifier
}.

(** *** Reading a version *)

Fixpoint split (sep : ascii) (s : list ascii) : list (list ascii) :=
  match s with
  | [] => [[]]
  | c :: r =>
      if Ascii.eqb c sep then [] :: split sep r
      else
        match split sep r with
        | part :: parts => (c :: part) :: parts
        | [] => [[c]]
        end
  end.

(** The text before the first [sep], and the text after it if there is
    one. *)
Fixpoint cut (sep : ascii) (s : list ascii)
  : list ascii * option (list ascii) :=
  match s with
  | [] => ([], None)
  | c :: r =>
      if Ascii.eqb c sep then ([], Some r)
      else let '(before, after) := cut sep r in (c :: before, after)
  end.

(** Digits only, no leading zero. *)
Definition numeric (s : list ascii) : option N :=
  match JSON.read_digits s with
  | (Nil, _) => None
  | (D0 Nil, []) => Some 0%N
  | (D0 _, _) => None
  | (u, []) => Some (N.of_uint u)
  | (_, _ :: _) => None
  end.

Definition is_digit (c : ascii) : bool :=
  let n := N_of_ascii c in (48 <=? n)%N && (n <=? 57)%N.

Definition is_identifier_char (c : ascii) : bool :=
  let n := N_of_ascii c in
  is_digit c || ((65 <=? n)%N && (n <=? 90)%N)
  || ((97 <=? n)%N && (n <=? 122)%N) || (n =? 45)%N.

Definition identifier_of (s : list ascii) : option identifier :=
  match s with
  | [] => None
  | _ :: _ =>
      if forallb is_digit s then Numeric <$> numeric s
      else if forallb is_identifier_char s
           then Some (Alphanumeric (string_of_list_ascii s))
           else None
  end.

Fixpoint identifiers (parts : list (list ascii)) : option (list identifier) :=
  match parts with
  | [] => Some []
  | p :: r => i ← identifier_of p; l ← identifiers r; Some (i :: l)
  end.

Definition parse (s : string) : option semver :=
  let '(main, _) := cut "+"%char (chars s) in
  let '(core, pre) := cut "-"%char main in
  match split "."%char core with
  | [a; b; c] =>
      ma ← numeric a; mi ← numeric b; pa ← numeric c;
      ids ← match pre with
            | None => Some []
            | Some p => identifiers (split "."%char p)
            end;
      Some (SemVer ma mi pa ids)
  | _ => None
  end.

(** *** Precedence *)

Definition compare_identifier (a b : identifier) : comparison :=
  match a, b with
  | Numeric x, Numeric y => (x ?= y)%N
  | Numeric _, Alphanumeric _ => Lt
  | Alphanumeric _, Numeric _ => Gt
  | Alphanumeric x, Alphanumeric y => String.compare x y
  end.

Fixpoint compare_identifiers (a b : list identifier) : comparison :=
  match a, b with
  | [], [] => Eq
  | [], _ :: _ => Lt
  | _ :: _, [] => Gt
  | x :: a', y :: b' =>
      match compare_identifier x y with
      | Eq => compare_identifiers a' b'
      | c => c
      end
  end.

Definition compare_prerelease (a b : list identifier) : comparison :=
  match a, b with
  | [], [] => Eq
  | [], _ :: _ => Gt
  | _ :: _, [] => Lt
  | _, _ => compare_identifiers a b
  end.

Definition compare (a b : semver) : comparison :=
  match (major a ?= major b)%N with
  | Eq =>
      match (minor a ?= minor b)%N with
      | Eq =>
          match (patch a ?= patch b)%N with
          | Eq => compare_prerelease (prerelease a) (prerelease b)
          | c => c
          end
      | c => c
      end
  | c => c
  end.

Definition le (a b : semver) : bool :=
  match compare a b with Gt => false | _ => true end.

Definition gt (a b : semver) : bool :=
  match compare a b with Gt => true | _ => false end.

(** *** The upgrade path *)

Fixpoint insert (x : string * semver) (l : list (string * semver))
  : list (string * semver) :=
  match l with
  | [] => [x]
  | y :: r => if le (snd x) (snd y) then x :: l else y :: insert x r
  end.

Fixpoint sort (l : list (string * semver)) : list (string * semver) :=
  match l with
  | [] => []
  | x :: r => insert x (sort r)
  end.

Fixpoint keyed (versionList : list string)
  : option (list (string * semver)) :=
  match versionList with
  | [] => Some []
  | k :: r => v ← parse k; l ← keyed r; Some ((k, v) :: l)
  end.

Definition path (from : semver) (l : list (string * semver))
  : list string :=
  map fst (sort (List.filter (fun kv => gt (snd kv) from) l)).

(** Outside version strings nothing is known of the service. *)
Definition migrateFrom (version : value) (versionList : list string)
  : result (list string) :=
  match version with
  | VStr s =>
      match parse s, keyed versionList with
      | Some from, Some l => Ok (path from l)
      | _, _ => Unmodelled
      end
  | _ => Unmodelled
  end.

End Migration.

(** ** The [storage] service (lines 83-206) *)

Module Storage.
Import JS.

(** *** The class methods *)

(** The [catch] around [JSON.stringify] is not reached: the values of the
    model are trees, and only a cycle makes it throw. *)
Definition stringify (data : value) : value :=
  match typeof data with
  | TString => data
  | TObject => JSON.stringify data
  | _ => VStr (ToString data)
  end.

Definition myParse (data : value) : value := data.

Definition save (key : string) (v : value) : async unit :=
  when (Adapter.write key (stringify v)).

Definition load (key : string) : async value :=
  data ← when (Adapter.read key); mret (myParse data).

Definition clear : async unit := when Adapter.clear.

Definition onReady (w : world) : option value := isNewDefer w.

Definition set_lastOpenVersion (v : value) : async unit :=
  fun w => (Ok tt, World (localStorage w) (isNewDefer w) (Some v) (trace w)).

(** A step as [chainCall] gets it, [MIGRATION_MAP[version].bind(null,
    this)]; its start and its settlement go to the trace. *)
Definition instrument (version : string) (step : async unit) : async unit :=
  fun w =>
    match step (record (EvStepBegin version) w) with
    | (Ok _, w') => (Ok tt, record (EvStepDone version) w')
    | (Throw, w') => (Throw, record (EvStepFailed version) w')
    | (Unmodelled, w') => (Unmodelled, w')
    end.

Fixpoint step_of (table : list (string * async unit)) (version : string)
  : option (async unit) :=
  match table with
  | [] => None
  | (k, f) :: r => if String.eqb k version then Some f else step_of r version
  end.

(** [undefined.bind] is a TypeError. *)
Definition bound_step (table : list (string * async unit)) (version : string)
  : result (async unit) :=
  match step_of table version with
  | Some f => Ok (instrument version f)
  | None => Throw
  end.

Section service.

(** The ambient [WavesApp] object and the [ts-utils] package, neither
    of which the sources contain. *)
Variable WavesApp_version : string.
Variable DASH XMR : string.
Variable tsUtils_set : value -> string -> value -> result value.
Variable tsUtils_unset : value -> string -> result value.

(** *** The migration steps (lines 85-142) *)

Definition user_of_account (account : value) : result value :=
  address ← get_prop account "address";
  cipher ← get_prop account "cipher";
  Ok (VObj [("address"%string, address);
            ("encryptedSeed"%string, cipher);
            ("settings"%string,
             VObj [("encryptionRounds"%string, VNum (NInt 1000))])]).

Definition migrate_1_0_0 : async unit :=
  data ← load "Wavesmainnet";
  if negb (truthy data) then mret tt
  else
    userList ← lift (accounts ← get_prop data "accounts";
                      l ← as_array accounts;
                      traverse user_of_account l);
    _ ← clear;
    save "userList" (VArr userList).

Definition migrate_1_0_0_beta_23 : async unit :=
  list ← load "userList";
  newList ← lift (l ← as_array (default_arg list (VArr []));
                  traverse
                    (fun item =>
                       tsUtils_set item "settings.lastOpenVersion"
                         (VStr "1.0.0-beta.22")) l);
  save "userList" (VArr newList).

(** The callback of [users.forEach]: the user record after it. *)
Definition addNewGateway_user (gateway : string) (user : value)
  : result value :=
  s ← get_prop user "settings";
  let settings := if truthy s then s else VObj [] in
  idList ← get_prop settings "pinnedAssetIdList";
  if truthy idList then
    present ← includes idList gateway;
    if negb present then
      idList' ← push idList (VStr gateway);
      Ok (set_prop user "settings"
            (set_prop settings "pinnedAssetIdList" idList'))
    else Ok user
  else Ok user.

Definition addNewGateway (gateway : string) : async unit :=
  users ← load "userList";
  users' ← lift (l ← as_array (default_arg users (VArr []));
                 traverse (addNewGateway_user gateway) l);
  save "userList" (VArr users').

Definition migrate_1_0_0_beta_47 : async unit :=
  list ← load "userList";
  res ← lift (l ← as_array (default_arg list (VArr []));
              traverse (fun item => tsUtils_unset item "settings.dex") l);
  save "userList" (VArr res).

(** The table, in the order of [Object.keys]. *)
Definition MIGRATION_MAP : list (string * async unit) :=
  [("1.0.0"%string, migrate_1_0_0);
   ("1.0.0-beta.23"%string, migrate_1_0_0_beta_23);
   ("1.0.0-beta.35"%string, addNewGateway DASH);
   ("1.0.0-beta.40"%string, addNewGateway XMR);
   ("1.0.0-beta.47"%string, migrate_1_0_0_beta_47)].

(** *** The constructor (lines 146-165)

    [save('lastVersion', ...)] is not awaited; on [localStorage] the
    write is done when [save] returns. *)
Definition construct (table : list (string * async unit)) : async unit :=
  version ← load "lastVersion";
  _ ← save "lastVersion" (VStr WavesApp_version);
  _ ← set_lastOpenVersion version;
  if truthy version then
    versions ← lift (Migration.migrateFrom version (map fst table));
    steps ← lift (traverse (bound_step table) versions);
    _ ← chainCall steps;
    resolve version
  else
    _ ← resolve version;
    mret tt.

Definition constructor : async unit := construct MIGRATION_MAP.

End service.

(** The world in which the factory runs: the store as the last session
    left it, the deferred pending. *)
Definition boot (data : gmap string string) : world :=
  World data None None [].

End Storage.

(** * Notions the properties are stated with *)

Module Props.
Import JS JSON.

(** A value that [JSON.stringify] writes and [JSON.parse] reads back:
    no [undefined], only safe integers for numbers, and objects whose
    property names are distinct (as the own properties of an object
    are). *)
Fixpoint unique_keys (l : list string) : bool :=
  match l with
  | [] => true
  | k :: r => negb (existsb (String.eqb k) r) && unique_keys r
  end.

Fixpoint serializable (v : value) : bool :=
  match v with
  | VUndefined => false
  | VNull | VBool _ | VStr _ => true
  | VNum (NInt z) => safe_integer z
  | VNum _ => false
  | VArr l => forallb serializable l
  | VObj l =>
      forallb (fun kv => serializable (snd kv)) l && unique_keys (map fst l)
  end.

(** The number of values the parser reads to rebuild [v]. *)
Fixpoint cost (v : value) : nat :=
  match v with
  | VArr l => S (list_sum (map (fun x => S (cost x)) l))
  | VObj l => S (list_sum (map (fun kv => S (cost (snd kv))) l))
  | _ => 1
  end.

(** What may follow a value inside a text. *)
Definition stop (s : list ascii) : bool :=
  match s with
  | [] => true
  | c :: _ =>
      let n := N_of_ascii c in
      (n =? 44)%N || (n =? 93)%N || (n =? 125)%N
  end.

Definition roundtrips (v : value) : Prop :=
  forall fuel rest, (cost v <= fuel)%nat -> stop rest = true ->
    parse_value fuel (print v ++ rest) = Ok (v, rest, true).

Definition elems_cost (l : list value) : nat :=
  list_sum (map (fun x => S (cost x)) l).

Definition members_cost (l : list (string * value)) : nat :=
  list_sum (map (fun kv => S (cost (snd kv))) l).

(** The store after the events [evs], from the store [data]. *)
Definition apply_event (data : gmap string string) (e : event)
  : gmap string string :=
  match e with
  | EvSetItem k text => <[k := text]> data
  | EvClear => ∅
  | _ => data
  end.

Definition replay (evs : list event) (data : gmap string string)
  : gmap string string :=
  fold_left apply_event evs data.

(** What [load key] returns on the store [data]. *)
Definition reading (key : string) (data : gmap string string)
  : result value :=
  fst (Storage.load key (Storage.boot data)).

(** The events of a migration step's own work: it rewrites [userList] or
    wipes the store. *)
Definition store_event (e : event) : Prop :=
  match e with
  | EvSetItem k _ => k = "userList"%string
  | EvClear => True
  | _ => False
  end.

(** An event that leaves [lastVersion] as it is, unless it is a wipe. *)
Definition writes_only_userList (e : event) : Prop :=
  match e with
  | EvSetItem k _ => k = "userList"%string
  | _ => True
  end.

(** A computation that touches the world the way a step may: it adds
    store events, the store follows them, and the deferred is left
    alone. *)
Definition quiet_run (w w' : world) : Prop :=
  exists evs,
    trace w' = trace w ++ evs /\ Forall store_event evs /\
    localStorage w' = replay evs (localStorage w) /\
    isNewDefer w' = isNewDefer w.

Definition quiet {A} (m : async A) : Prop :=
  forall w, quiet_run w (snd (m w)).

(** The trace of a chain of steps planned for the versions [vs]: each
    step begins, works and is done before the next one begins; a failed
    step is the last thing that happens. *)
Inductive chain_trace : list string -> result unit -> list event -> Prop :=
  | chain_end : chain_trace [] (Ok tt) []
  | chain_done v vs r body evs :
      Forall store_event body ->
      chain_trace vs r evs ->
      chain_trace (v :: vs) r (EvStepBegin v :: body ++ EvStepDone v :: evs)
  | chain_failed v vs body :
      Forall store_event body ->
      chain_trace (v :: vs) Throw (EvStepBegin v :: body ++ [EvStepFailed v])
  | chain_unmodelled v vs body :
      Forall store_event body ->
      chain_trace (v :: vs) Unmodelled (EvStepBegin v :: body).

(** The versions whose step began, and those whose step was done, in the
    order of the trace. *)
Fixpoint begun (evs : list event) : list string :=
  match evs with
  | [] => []
  | EvStepBegin v :: r => v :: begun r
  | _ :: r => begun r
  end.

Fixpoint done_steps (evs : list event) : list string :=
  match evs with
  | [] => []
  | EvStepDone v :: r => v :: done_steps r
  | _ :: r => done_steps r
  end.

Fixpoint resolutions (evs : list event) : list value :=
  match evs with
  | [] => []
  | EvResolve v :: r => v :: resolutions r
  | _ :: r => resolutions r
  end.

(** The step events alone. *)
Fixpoint step_events (evs : list event) : list event :=
  match evs with
  | [] => []
  | EvStepBegin v :: r => EvStepBegin v :: step_events r
  | EvStepDone v :: r => EvStepDone v :: step_events r
  | EvStepFailed v :: r => EvStepFailed v :: step_events r
  | _ :: r => step_events r
  end.

(** Steps one at a time: the step events pair up, a begin directly
    followed by the settlement of the same step, except that the last
    step may not have settled. *)
Fixpoint one_at_a_time (evs : list event) : Prop :=
  match evs with
  | [] => True
  | [EvStepBegin _] => True
  | EvStepBegin v :: EvStepDone v' :: r => v = v' /\ one_at_a_time r
  | [EvStepBegin v; EvStepFailed v'] => v = v'
  | _ => False
  end.

(** The order the upgrade path is sorted by. *)
Definition le_snd (x y : string * Migration.semver) : Prop :=
  Migration.le (snd x) (snd y) = true.

(** The order of versions, on their texts. *)
Definition version_le (a b : string) : Prop :=
  exists p q, Migration.parse a = Some p /\ Migration.parse b = Some q /\
              Migration.le p q = true.

Definition newer (k : string) (prior : value) : Prop :=
  exists s p q, prior = VStr s /\ Migration.parse s = Some p /\
                Migration.parse k = Some q /\
                Migration.compare q p = Gt.

(** The pinned-asset list of a user record, when it is an array. *)
Definition pinned (user : value) : option (list value) :=
  match get_prop user "settings" with
  | Ok (VObj settings) =>
      match get_own settings "pinnedAssetIdList" with
      | Some (VArr l) => Some l
      | _ => None
      end
  | _ => None
  end.

End Props.

(** * Sample stores and collaborators, for the examples *)

Module Examples.
Import JS.

(** A stand-in for [ts-utils]: [set] and [unset] along a dotted path, on
    plain objects. *)
Fixpoint set_path (path : list string) (v item : value) : value :=
  match path with
  | [] => v
  | k :: rest =>
      let props := match item with VObj props => props | _ => [] end in
      let inner := match get_own props k with
                   | Some x => x
                   | None => VObj []
                   end in
      VObj (set_own props k (set_path rest v inner))
  end.

Fixpoint remove_own (props : list (string * value)) (name : string)
  : list (string * value) :=
  match props with
  | [] => []
  | (k, w) :: r =>
      if String.eqb k name then r else (k, w) :: remove_own r name
  end.

Fixpoint unset_path (path : list string) (item : value) : value :=
  match path, item with
  | [k], VObj props => VObj (remove_own props k)
  | k :: rest, VObj props =>
      match get_own props k with
      | Some x => VObj (set_own props k (unset_path rest x))
      | None => item
      end
  | _, _ => item
  end.

Definition dotted (path : string) : list string :=
  map string_of_list_ascii (Migration.split "."%char (chars path)).

Definition tsUtils_set (item : value) (path : string) (v : value)
  : result value :=
  Ok (set_path (dotted path) v item).

Definition tsUtils_unset (item : value) (path : string) : result value :=
  Ok (unset_path (dotted path) item).

Definition text_of (v : value) : string := ToString (JSON.stringify v).

(** A store left by a pre-release build: one user with two pinned
    assets. *)
Definition beta_user : value :=
  VObj [("address"%string, VStr "3PAbc");
        ("encryptedSeed"%string, VStr "U2FsdGVk");
        ("settings"%string,
         VObj [("dex"%string, VObj [("pair"%string, VStr "WAVES/BTC")]);
               ("pinnedAssetIdList"%string,
                VArr [VStr "WAVES"; VStr "BTC"])])].

Definition beta_store : gmap string string :=
  <["lastVersion"%string := "1.0.0-beta.30"%string]>
    (<["userList"%string := text_of (VArr [beta_user])]> ∅).

(** A store that still holds the legacy account list. *)
Definition legacy_accounts : value :=
  VObj [("accounts"%string,
         VArr [VObj [("address"%string, VStr "3PAbc");
                     ("cipher"%string, VStr "U2FsdGVk")]])].

Definition legacy_store : gmap string string :=
  <["lastVersion"%string := "1.0.0-beta.50"%string]>
    (<["Wavesmainnet"%string := text_of legacy_accounts]> ∅).

(** A store with a version but no user list: the first step that maps
    over the list is rejected. *)
Definition broken_store : gmap string string :=
  <["lastVersion"%string := "0.9.0"%string]> ∅.

Definition start (data : gmap string string) : result unit * world :=
  Storage.constructor "1.0.1" "DASH" "XMR" tsUtils_set tsUtils_unset
    (Storage.boot data).

End Examples.

(** ** The in-memory store (lines 14-38)

    The object installed as [window.localStorage] when the native store
    refuses a write.  [_data] is an object without prototype: the list of
    its own properties, in the order of their creation. *)

Module Shim.
Import JS.

Fixpoint lookup (name : string) (data : list (string * string))
  : option string :=
  match data with
  | [] => None
  | (k, s) :: r => if String.eqb k name then Some s else lookup name r
  end.

(** [_data[name] = text]: a property that exists keeps its place. *)
Fixpoint assign (name text : string) (data : list (string * string))
  : list (string * string) :=
  match data with
  | [] => [(name, text)]
  | (k, s) :: r =>
      if String.eqb k name then (k, text) :: r
      else (k, s) :: assign name text r
  end.

(** [delete _data[name]] *)
Fixpoint remove (name : string) (data : list (string * string))
  : list (string * string) :=
  match data with
  | [] => []
  | (k, s) :: r =>
      if String.eqb k name then r else (k, s) :: remove name r
  end.

(** An array index: the canonical decimal text of an integer below
    [2^32 - 1]. *)
Definition array_index (name : string) : option N :=
  match JSON.read_digits (chars name) with
  | (Nil, _) => None
  | (D0 Nil, []) => Some 0%N
  | (D0 _, _) => None
  | (u, []) =>
      let n := N.of_uint u in
      if (n <? 4294967295)%N then Some n else None
  | (_, _ :: _) => None
  end.

Fixpoint insert_index (x : N * string) (l : list (N * string))
  : list (N * string) :=
  match l with
  | [] => [x]
  | y :: r => if (fst x <=? fst y)%N then x :: l else y :: insert_index x r
  end.

Fixpoint sort_indices (l : list (N * string)) : list (N * string) :=
  match l with
  | [] => []
  | x :: r => insert_index x (sort_indices r)
  end.

Fixpoint indexed (names : list string) : list (N * string) :=
  match names with
  | [] => []
  | k :: r =>
      match array_index k with
      | Some n => (n, k) :: indexed r
      | None => indexed r
      end
  end.

Fixpoint named (names : list string) : list string :=
  match names with
  | [] => []
  | k :: r =>
      match array_index k with
      | Some _ => named r
      | None => k :: named r
      end
  end.

(** [Object.keys(_data)]: the array indices in ascending order, then the
    other names in the order of their creation. *)
Definition Object_keys (data : list (string * string)) : list string :=
  map snd (sort_indices (indexed (map fst data))) ++ named (map fst data).

(** [get length()] *)
Definition length (data : list (string * string)) : nat :=
  List.length (Object_keys data).

(** [key(n)], for an integer [n]: past the end of an array the element
    is [undefined]. *)
Definition key (n : Z) (data : list (string * string)) : value :=
  if (n <? 0)%Z then VUndefined
  else
    match nth_error (Object_keys data) (Z.to_nat n) with
    | Some k => VStr k
    | None => VUndefined
    end.

Definition setItem (name : string) (v : value)
    (data : list (string * string)) : list (string * string) :=
  assign name (ToString v) data.

Definition removeItem (name : string) (data : list (string * string))
  : list (string * string) :=
  remove name data.

Definition getItem (name : string) (data : list (string * string))
  : value :=
  match lookup name data with
  | Some s => VStr s
  | None => VNull
  end.

Definition clear (data : list (string * string))
  : list (string * string) := [].

(** The object as the map the service works on. *)
Definition to_map (data : list (string * string)) : gmap string string :=
  list_to_map data.

(** An object has each of its properties once. *)
Definition well_formed (data : list (string * string)) : Prop :=
  List.NoDup (map fst data).

End Shim.

(** * Further notions, for the properties of the rest of the service *)

Module StoreProps.
Import JS Props Storage.

(** The members of an object that can be written back. *)
Definition members_ok (l : list (string * value)) : Prop :=
  forallb (fun kv => serializable (snd kv)) l = true /\
  unique_keys (map fst l) = true.

(** The shape the three steps over [userList] share: load the list,
    rebuild it, save it. *)
Definition list_step (rebuild : value -> result (list value)) : async unit :=
  list ← load "userList";
  newList ← lift (rebuild list);
  save "userList" (VArr newList).

(** [v.name], [undefined] when there is nothing to read. *)
Definition field (v : value) (name : string) : value :=
  match get_prop v name with
  | Ok x => x
  | _ => VUndefined
  end.

(** The user record the [1.0.0] step makes of a legacy account. *)
Definition converted (account : value) : value :=
  VObj [("address"%string, field account "address");
        ("encryptedSeed"%string, field account "cipher");
        ("settings"%string,
         VObj [("encryptionRounds"%string, VNum (NInt 1000))])].

Definition is_array (v : value) : bool :=
  match v with
  | VArr _ => true
  | _ => false
  end.

End StoreProps.

(** * Facts about JSON text *)

Module JSONFacts.
Import JS JSON Props.

Ltac each_char c :=
  destruct c as [[|] [|] [|] [|] [|] [|] [|] [|]].

(** Decide the tests the parser makes on a known character. *)
Ltac known_bool t :=
  let b := eval vm_compute in t in
  lazymatch b with
  | true => change t with true
  | false => change t with false
  end; cbv iota.

Ltac char_tests :=
  repeat match goal with
    | |- context [is_ws ?c] => known_bool (is_ws c)
    | |- context [(N_of_ascii ?c =? ?n)%N] =>
        known_bool (N_of_ascii c =? n)%N
    end.

Lemma stop_read_digits s : stop s = true -> read_digits s = (Nil, s).
Proof.
  destruct s as [|c r]; [reflexivity|].
  intros H. cbn [read_digits].
  each_char c; try discriminate H; reflexivity.
Qed.

Lemma stop_fraction s : stop s = true -> parse_fraction s = Ok (false, s).
Proof.
  destruct s as [|c r]; [reflexivity|].
  intros H. each_char c; try discriminate H; reflexivity.
Qed.

Lemma stop_exponent s : stop s = true -> parse_exponent s = Ok (false, s).
Proof.
  destruct s as [|c r]; [reflexivity|].
  intros H. each_char c; try discriminate H; reflexivity.
Qed.

Lemma stop_skip_ws s : stop s = true -> skip_ws s = s.
Proof.
  destruct s as [|c r]; [reflexivity|].
  intros H. each_char c; try discriminate H; reflexivity.
Qed.

Lemma read_digits_chars u rest :
  read_digits rest = (Nil, rest) ->
  read_digits (uint_chars u ++ rest) = (u, rest).
Proof.
  intros Hrest. induction u; cbn [uint_chars app]; trivial;
    cbn [read_digits]; rewrite IHu; reflexivity.
Qed.

Lemma unorm_D0 u u' : unorm u = D0 u' -> u' = Nil.
Proof.
  induction u; cbn; intros H; try discriminate; auto.
  now injection H.
Qed.

Lemma to_uint_leading p u : Pos.to_uint p <> D0 u.
Proof.
  intros H.
  pose proof (DecimalN.Unsigned.to_of (Pos.to_uint p)) as Hn.
  change (N.of_uint (Pos.to_uint p)) with (Pos.of_uint (Pos.to_uint p)) in Hn.
  rewrite DecimalPos.Unsigned.of_to in Hn. cbn in Hn.
  rewrite H in Hn. symmetry in Hn. apply unorm_D0 in Hn. subst u.
  now apply (DecimalPos.Unsigned.to_uint_nonzero p).
Qed.

Lemma finish_number_stop (negative : bool) u rest :
  stop rest = true ->
  finish_number negative u rest =
    Ok (VNum (NInt (if negative then - Z.of_N (N.of_uint u)
                    else Z.of_N (N.of_uint u))), rest,
        safe_integer (if negative then - Z.of_N (N.of_uint u)
                      else Z.of_N (N.of_uint u))).
Proof.
  intros H. unfold finish_number.
  rewrite (stop_fraction _ H). cbn. rewrite (stop_exponent _ H). reflexivity.
Qed.

Lemma parse_number_pos (negative : bool) p rest :
  stop rest = true ->
  parse_number
    ((if negative then ["-"%char] else []) ++
     uint_chars (Pos.to_uint p) ++ rest) =
    Ok (VNum (NInt (if negative then Zneg p else Zpos p)), rest,
        safe_integer (if negative then Zneg p else Zpos p)).
Proof.
  intros Hstop.
  assert (Hval : N.of_uint (Pos.to_uint p) = Npos p)
    by apply DecimalPos.Unsigned.of_to.
  pose proof (DecimalPos.Unsigned.to_uint_nonnil p) as Hnil.
  pose proof (to_uint_leading p) as Hlead.
  pose proof (fun u => read_digits_chars u rest
                (stop_read_digits _ Hstop)) as Hread.
  assert (Hgo : parse_number
            ((if negative then ["-"%char] else []) ++
             uint_chars (Pos.to_uint p) ++ rest) =
          finish_number negative (Pos.to_uint p) rest).
  { destruct (Pos.to_uint p) as [|u|u|u|u|u|u|u|u|u|u] eqn:E;
      [congruence | exfalso; eapply Hlead; reflexivity | ..];
      destruct negative; unfold parse_number;
      simpl; rewrite (Hread u); reflexivity. }
  rewrite Hgo, (finish_number_stop _ _ _ Hstop), Hval.
  destruct negative; reflexivity.
Qed.

Lemma parse_number_integer z rest :
  stop rest = true ->
  parse_number (integer_chars z ++ rest) =
    Ok (VNum (NInt z), rest, safe_integer z).
Proof.
  intros Hstop. destruct z as [|p|p].
  - unfold parse_number. simpl. rewrite (stop_read_digits _ Hstop).
    now rewrite (finish_number_stop _ _ _ Hstop).
  - apply (parse_number_pos false p rest Hstop).
  - apply (parse_number_pos true p rest Hstop).
Qed.

(** The first character of an integer sends [parse_value] to
    [parse_number]. *)
Lemma integer_chars_head z :
  exists c cs, integer_chars z = c :: cs /\
    (c = "-"%char \/ exists d, digit_of c = Some d).
Proof.
  destruct z as [|p|p]; cbn.
  - exists "0"%char, []. split; [reflexivity|right; eexists; reflexivity].
  - pose proof (DecimalPos.Unsigned.to_uint_nonnil p).
    destruct (Pos.to_uint p); [congruence|..]; cbn;
      eexists _, _; (split; [reflexivity|right; eexists; reflexivity]).
  - eexists _, _. split; [reflexivity|now left].
Qed.

Lemma parse_value_integer fuel z rest :
  stop rest = true ->
  parse_value (S fuel) (integer_chars z ++ rest) =
    Ok (VNum (NInt z), rest, safe_integer z).
Proof.
  intros Hstop. rewrite <- (parse_number_integer z rest Hstop).
  destruct (integer_chars_head z) as (c & cs & -> & Hc).
  cbn [app parse_value skip_ws].
  destruct Hc as [->|[d Hd]]; [reflexivity|].
  each_char c; try discriminate Hd; reflexivity.
Qed.

Lemma parse_chars_quote_char c tail :
  parse_chars (quote_char c ++ tail) = push_char c true (parse_chars tail).
Proof. each_char c; reflexivity. Qed.

Lemma parse_chars_quote cs rest :
  parse_chars (flat_map quote_char cs ++ dquote :: rest) =
    Ok (cs, rest, true).
Proof.
  induction cs as [|c cs IH]; [reflexivity|].
  cbn [flat_map]. rewrite <- app_assoc, parse_chars_quote_char, IH.
  reflexivity.
Qed.

Lemma parse_value_string fuel s rest :
  parse_value (S fuel) (quote s ++ rest) = Ok (VStr s, rest, true).
Proof.
  unfold quote. cbn [app parse_value skip_ws]. char_tests.
  rewrite <- app_assoc. cbn [app].
  rewrite parse_chars_quote. cbn.
  unfold chars. now rewrite string_of_list_ascii_of_string.
Qed.

Lemma print_head v :
  exists c cs, print v = c :: cs /\ is_ws c = false /\
    (N_of_ascii c =? 93)%N = false.
Proof.
  destruct v as [| |[|]|[z| |]|s|l|l];
    try (eexists _, _; repeat split; reflexivity).
  destruct (integer_chars_head z) as (c & cs & E & Hc).
  exists c, cs. split; [exact E|].
  destruct Hc as [->|[d Hd]]; [split; reflexivity|].
  each_char c; try discriminate Hd; split; reflexivity.
Qed.

Lemma stop_print_elems l rest :
  stop (print_elems print l false ++ "]"%char :: rest) = true.
Proof. destruct l; reflexivity. Qed.

Lemma parse_elems_print l : forall x fuel rest,
  Forall roundtrips (x :: l) ->
  (elems_cost (x :: l) <= fuel)%nat ->
  parse_elems fuel
    (print x ++ print_elems print l false ++ "]"%char :: rest) =
    Ok (x :: l, rest, true).
Proof.
  induction l as [|y l IH]; intros x fuel rest Hall Hfuel;
    destruct fuel as [|fuel]; try (cbn in Hfuel; lia);
    inversion Hall as [|? ? Hx Hl]; subst;
    cbn [parse_elems]; unfold elems_cost in Hfuel; cbn in Hfuel.
  - rewrite Hx by (cbn; trivial; lia). reflexivity.
  - rewrite Hx; [|lia|apply (stop_print_elems (y :: l))].
    cbn [mbind result_bind rbind].
    cbn [print_elems sep app skip_ws]. char_tests.
    rewrite <- app_assoc, IH; [reflexivity|assumption|].
    unfold elems_cost. cbn. lia.
Qed.

Lemma print_members_cons k v l first :
  v <> VUndefined ->
  print_members print ((k, v) :: l) first =
    sep first ++ quote k ++ ":"%char :: print v ++
    print_members print l false.
Proof. destruct v; intros H; try reflexivity. congruence. Qed.

Lemma set_own_fresh acc k v ks :
  unique_keys (map fst acc ++ k :: ks) = true ->
  set_own acc k v = acc ++ [(k, v)].
Proof.
  induction acc as [|[a w] acc IH]; [reflexivity|].
  cbn [map fst app unique_keys set_own].
  rewrite andb_true_iff, negb_true_iff, existsb_app. cbn [existsb].
  rewrite !orb_false_iff. intros [(_ & -> & _) Hu].
  now rewrite (IH Hu).
Qed.

Lemma roundtrips_defined v : roundtrips v -> v <> VUndefined.
Proof.
  intros H ->. specialize (H 1%nat [] (le_n _) eq_refl). discriminate H.
Qed.

Lemma stop_print_members l rest :
  Forall (fun kv => roundtrips (snd kv)) l ->
  stop (print_members print l false ++ "}"%char :: rest) = true.
Proof.
  destruct l as [|[k v] l]; [reflexivity|].
  intros H. inversion H as [|? ? Hv _]; subst.
  rewrite print_members_cons by exact (roundtrips_defined _ Hv).
  reflexivity.
Qed.

Lemma parse_members_print l : forall k v acc fuel rest,
  Forall (fun kv => roundtrips (snd kv)) ((k, v) :: l) ->
  unique_keys (map fst acc ++ k :: map fst l) = true ->
  (members_cost ((k, v) :: l) <= fuel)%nat ->
  parse_members fuel
    (quote k ++ ":"%char :: print v ++
     print_members print l false ++ "}"%char :: rest) acc =
    Ok (acc ++ (k, v) :: l, rest, true).
Proof.
  induction l as [|[k' v'] l IH]; intros k v acc fuel rest Hall Hu Hfuel;
    destruct fuel as [|fuel]; try (cbn in Hfuel; lia);
    inversion Hall as [|? ? Hv Hl]; subst; cbn [snd] in Hv;
    unfold members_cost in Hfuel; cbn in Hfuel;
    unfold quote; cbn [parse_members app skip_ws]; char_tests;
    rewrite <- app_assoc; cbn [app]; rewrite parse_chars_quote;
    cbn [mbind result_bind rbind skip_ws]; char_tests;
    unfold chars; rewrite string_of_list_ascii_of_string.
  - rewrite Hv by (cbn; trivial; lia).
    cbn [mbind result_bind rbind print_members app skip_ws]. char_tests.
    now rewrite (set_own_fresh _ _ _ _ Hu).
  - rewrite Hv; [|lia|apply (stop_print_members ((k', v') :: l) rest Hl)].
    inversion Hl as [|? ? Hv' _]; subst.
    rewrite print_members_cons by exact (roundtrips_defined _ Hv').
    cbn [mbind result_bind rbind sep app skip_ws]. char_tests.
    rewrite (set_own_fresh _ _ _ _ Hu).
    fold (quote k').
    rewrite <- (app_assoc (quote k')). cbn [app].
    rewrite <- (app_assoc (print v')).
    rewrite IH; [now rewrite <- app_assoc|assumption| |].
    + now rewrite map_app, <- app_assoc.
    + unfold members_cost. cbn. lia.
Qed.

Lemma serializable_roundtrips v : serializable v = true -> roundtrips v.
Proof.
  induction v as [| |b|n|s|l IH|l IH] using value_ind; intros Hs.
  - discriminate Hs.
  - intros [|fuel] rest Hf _; [cbn in Hf; lia|reflexivity].
  - intros [|fuel] rest Hf _; [cbn in Hf; lia|destruct b; reflexivity].
  - destruct n as [z| |]; try discriminate Hs.
    intros [|fuel] rest Hf Hstop; [cbn in Hf; lia|].
    cbn [print]. rewrite (parse_value_integer _ _ _ Hstop).
    cbn in Hs. now rewrite Hs.
  - intros [|fuel] rest Hf _; [cbn in Hf; lia|].
    apply parse_value_string.
  - cbn [serializable] in Hs. rewrite forallb_forall in Hs.
    assert (Hall : Forall roundtrips l).
    { rewrite Forall_forall in IH |- *. intros x Hx.
      apply IH; [exact Hx|]. apply Hs. now apply list_elem_of_In. }
    clear IH Hs.
    intros [|fuel] rest Hf _; [cbn in Hf; lia|].
    destruct l as [|x l]; [reflexivity|].
    cbn [print print_elems sep app].
    rewrite <- !app_assoc. cbn [app parse_value skip_ws]. char_tests.
    destruct (print_head x) as (c & cs & E & Hws & Hc).
    pose proof (parse_elems_print l x fuel rest Hall) as Hp.
    rewrite E in Hp |- *. cbn [app skip_ws] in Hp |- *.
    rewrite Hws, Hc, Hp; [reflexivity|].
    cbn in Hf. unfold elems_cost. cbn. lia.
  - cbn [serializable] in Hs. apply andb_true_iff in Hs as [Hs Hu].
    rewrite forallb_forall in Hs.
    assert (Hall : Forall (fun kv => roundtrips (snd kv)) l).
    { rewrite Forall_forall in IH |- *. intros x Hx.
      apply IH; [exact Hx|]. apply Hs. now apply list_elem_of_In. }
    clear IH Hs.
    intros [|fuel] rest Hf _; [cbn in Hf; lia|].
    destruct l as [|[k v] l]; [reflexivity|].
    inversion Hall as [|? ? Hv _]; subst.
    cbn [print]. rewrite print_members_cons
      by exact (roundtrips_defined _ Hv).
    pose proof (parse_members_print l k v [] fuel rest Hall Hu) as Hp.
    repeat first [rewrite <- app_assoc | progress cbn [app sep]].
    cbn [parse_value skip_ws]. char_tests.
    unfold quote in Hp |- *. cbn [app skip_ws] in Hp |- *. char_tests.
    rewrite Hp; [reflexivity|].
    cbn in Hf. unfold members_cost. cbn. lia.
Qed.

Lemma elems_cost_le l : forall first : bool,
  Forall (fun x => (cost x <= length (print x))%nat) l ->
  (elems_cost l <=
   length (print_elems print l first) + (if first then 1 else 0))%nat.
Proof.
  induction l as [|x l IH]; intros first Hall; [cbn; lia|].
  inversion Hall as [|? ? Hx Hl]; subst.
  specialize (IH false Hl).
  unfold elems_cost, list_sum in *. cbn [map fold_right print_elems].
  rewrite !length_app. destruct first; cbn [sep length]; lia.
Qed.

Lemma members_cost_le l : forall first : bool,
  Forall (fun kv => serializable (snd kv) = true /\
            (cost (snd kv) <= length (print (snd kv)))%nat) l ->
  (members_cost l <=
   length (print_members print l first) + (if first then 1 else 0))%nat.
Proof.
  induction l as [|[k v] l IH]; intros first Hall; [cbn; lia|].
  inversion Hall as [|? ? [Hs Hx] Hl]; subst. cbn [snd] in Hs, Hx.
  specialize (IH false Hl).
  rewrite print_members_cons by (intros ->; discriminate Hs).
  unfold members_cost, list_sum in *. cbn [map fold_right snd].
  rewrite !length_app. cbn [length]. rewrite length_app.
  destruct first; cbn [sep length]; lia.
Qed.

Lemma cost_le_length v :
  serializable v = true -> (cost v <= length (print v))%nat.
Proof.
  induction v as [| |b|n|s|l IH|l IH] using value_ind; intros Hs.
  - discriminate Hs.
  - cbn. lia.
  - destruct b; cbn; lia.
  - destruct n as [z| |]; try discriminate Hs.
    destruct (integer_chars_head z) as (c & cs & E & _).
    cbn [print cost]. rewrite E. cbn. lia.
  - cbn. lia.
  - cbn [serializable] in Hs. rewrite forallb_forall in Hs.
    assert (Hall : Forall (fun x => (cost x <= length (print x))%nat) l).
    { rewrite Forall_forall in IH |- *. intros x Hx.
      apply IH; [exact Hx|]. apply Hs. now apply list_elem_of_In. }
    pose proof (elems_cost_le l true Hall) as Hle.
    unfold elems_cost in Hle. cbn [cost print length].
    rewrite length_app. cbn [length]. lia.
  - cbn [serializable] in Hs. apply andb_true_iff in Hs as [Hs _].
    rewrite forallb_forall in Hs.
    assert (Hall : Forall (fun kv => serializable (snd kv) = true /\
               (cost (snd kv) <= length (print (snd kv)))%nat) l).
    { rewrite Forall_forall in IH |- *. intros x Hx.
      assert (serializable (snd x) = true)
        by (apply Hs; now apply list_elem_of_In).
      split; [assumption|]. now apply IH. }
    pose proof (members_cost_le l true Hall) as Hle.
    unfold members_cost in Hle. cbn [cost print length].
    rewrite length_app. cbn [length]. lia.
Qed.

(** [JSON.parse(JSON.stringify(v))] is [v]. *)
Lemma parse_text_print v :
  serializable v = true -> parse_text (print v) = Ok v.
Proof.
  intros Hs. unfold parse_text.
  pose proof (serializable_roundtrips v Hs (S (length (print v))) []) as H.
  rewrite app_nil_r in H. rewrite H; [reflexivity| |reflexivity].
  pose proof (cost_le_length v Hs). lia.
Qed.

Lemma parse_stringify v :
  serializable v = true -> parse (stringify v) = Ok v.
Proof.
  intros Hs. unfold parse, stringify.
  destruct v; try discriminate Hs;
    cbn [ToString]; unfold chars;
    rewrite list_ascii_of_string_of_list_ascii;
    now apply parse_text_print.
Qed.

End JSONFacts.

(** * Facts about the upgrade path *)

Module MigrationFacts.
Import JS Migration Props.

Lemma compare_identifier_antisym a b :
  compare_identifier b a = CompOpp (compare_identifier a b).
Proof.
  destruct a, b; cbn; trivial.
  - apply N.compare_antisym.
  - apply String.compare_antisym.
Qed.

Lemma compare_identifiers_antisym a : forall b,
  compare_identifiers b a = CompOpp (compare_identifiers a b).
Proof.
  induction a as [|x a IH]; intros [|y b]; cbn; trivial.
  rewrite (compare_identifier_antisym x y).
  destruct (compare_identifier x y); cbn; auto.
Qed.

Lemma compare_prerelease_antisym a b :
  compare_prerelease b a = CompOpp (compare_prerelease a b).
Proof.
  destruct a as [|x a], b as [|y b]; trivial.
  apply (compare_identifiers_antisym (x :: a) (y :: b)).
Qed.

Lemma compare_antisym a b : compare b a = CompOpp (compare a b).
Proof.
  unfold compare.
  rewrite (N.compare_antisym (major a) (major b)).
  rewrite (N.compare_antisym (minor a) (minor b)).
  rewrite (N.compare_antisym (patch a) (patch b)).
  rewrite (compare_prerelease_antisym (prerelease a) (prerelease b)).
  destruct (major a ?= major b)%N; cbn; trivial.
  destruct (minor a ?= minor b)%N; cbn; trivial.
  destruct (patch a ?= patch b)%N; cbn; trivial.
Qed.

Lemma le_total a b : le a b = false -> le b a = true.
Proof.
  unfold le. rewrite (compare_antisym a b).
  destruct (compare a b); cbn; congruence.
Qed.

Lemma insert_perm x l : Permutation (insert x l) (x :: l).
Proof.
  induction l as [|y l IH]; cbn; [reflexivity|].
  destruct (le (snd x) (snd y)); [reflexivity|].
  rewrite IH. apply perm_swap.
Qed.

Lemma sort_perm l : Permutation (sort l) l.
Proof.
  induction l as [|x l IH]; cbn; [reflexivity|].
  rewrite insert_perm. now constructor.
Qed.

Lemma insert_sorted x l : Sorted le_snd l -> Sorted le_snd (insert x l).
Proof.
  induction 1 as [|y l Hs IH Hhd]; cbn.
  - repeat constructor.
  - destruct (le (snd x) (snd y)) eqn:E.
    + constructor; [now constructor|]. now constructor.
    + constructor; [exact IH|].
      destruct Hhd as [|z l Hyz]; cbn.
      * constructor. now apply le_total.
      * destruct (le (snd x) (snd z)); constructor;
          [now apply le_total|exact Hyz].
Qed.

Lemma sort_sorted l : Sorted le_snd (sort l).
Proof.
  induction l as [|x l IH]; cbn; [constructor|]. now apply insert_sorted.
Qed.

Lemma keyed_spec ks : forall l,
  keyed ks = Some l ->
  map fst l = ks /\ Forall (fun kv => parse (fst kv) = Some (snd kv)) l.
Proof.
  induction ks as [|k ks IH]; cbn; intros l H.
  - injection H as <-. split; [reflexivity|constructor].
  - destruct (parse k) as [v|] eqn:Ek; [|discriminate H].
    destruct (keyed ks) as [l'|]; [|discriminate H].
    cbn in H. injection H as <-.
    destruct (IH l' eq_refl) as [Hm Hp].
    split; [cbn; now rewrite Hm|]. constructor; [exact Ek|exact Hp].
Qed.

(** The path holds exactly the registered keys newer than [from]. *)
Lemma path_elem from l k :
  In k (path from l) <-> exists q, In (k, q) l /\ gt q from = true.
Proof.
  unfold path. rewrite in_map_iff. split.
  - intros ([k' q] & <- & Hin).
    apply (Permutation_in _ (sort_perm _)) in Hin.
    apply filter_In in Hin as [Hin Hgt]. now exists q.
  - intros (q & Hin & Hgt). exists (k, q). split; [reflexivity|].
    apply (Permutation_in _ (Permutation_sym (sort_perm _))).
    apply filter_In. now split.
Qed.

Lemma Sorted_map_fst l :
  Forall (fun kv => parse (fst kv) = Some (snd kv)) l ->
  Sorted le_snd l -> Sorted version_le (map fst l).
Proof.
  intros Hp Hs. induction Hs as [|x l Hs IH Hhd]; cbn; [constructor|].
  inversion Hp as [|? ? Hx Hl]; subst.
  constructor; [now apply IH|].
  destruct Hhd as [|y l Hxy]; cbn; constructor.
  inversion Hl as [|? ? Hy _]; subst.
  now exists (snd x), (snd y).
Qed.

Lemma path_sorted from l :
  Forall (fun kv => parse (fst kv) = Some (snd kv)) l ->
  Sorted version_le (path from l).
Proof.
  intros Hp. apply Sorted_map_fst; [|apply sort_sorted].
  rewrite Forall_forall in Hp |- *. intros x Hx. apply Hp.
  apply list_elem_of_In in Hx.
  apply (Permutation_in _ (sort_perm _)) in Hx.
  apply filter_In in Hx as [Hx _]. now apply list_elem_of_In.
Qed.

Lemma filter_keys_NoDup (f : string * semver -> bool) l :
  List.NoDup (map fst l) -> List.NoDup (map fst (List.filter f l)).
Proof.
  induction l as [|x l IH]; cbn; intros H; [constructor|].
  apply List.NoDup_cons_iff in H as [Hx Hl].
  destruct (f x); cbn; [|now apply IH].
  apply List.NoDup_cons_iff. split; [|now apply IH].
  intros Hin. apply Hx.
  apply in_map_iff in Hin as (y & E & Hy). apply in_map_iff.
  exists y. split; [exact E|]. now apply filter_In in Hy.
Qed.

Lemma path_NoDup from l :
  List.NoDup (map fst l) -> List.NoDup (path from l).
Proof.
  intros H. unfold path.
  eapply Permutation_NoDup;
    [apply Permutation_map, Permutation_sym, sort_perm|].
  now apply filter_keys_NoDup.
Qed.

Lemma migrateFrom_NoDup prior ks vs :
  List.NoDup ks -> migrateFrom prior ks = Ok vs -> List.NoDup vs.
Proof.
  unfold migrateFrom. destruct prior as [| | | |s| |]; try discriminate.
  destruct (parse s) as [from|]; [|discriminate].
  destruct (keyed ks) as [l|] eqn:El; [|discriminate].
  intros Hk H. injection H as <-.
  apply path_NoDup. now rewrite (proj1 (keyed_spec ks l El)).
Qed.

(** What [migrateFrom] answers, when it answers. *)
Lemma migrateFrom_spec prior ks vs :
  migrateFrom prior ks = Ok vs ->
  Sorted version_le vs /\
  (forall k, In k vs <-> In k ks /\ newer k prior).
Proof.
  unfold migrateFrom. destruct prior as [| | | |s| |]; try discriminate.
  destruct (parse s) as [from|] eqn:Es; [|discriminate].
  destruct (keyed ks) as [l|] eqn:El; [|discriminate].
  intros H. injection H as <-.
  destruct (keyed_spec ks l El) as [Hm Hp].
  split; [now apply path_sorted|].
  intros k. rewrite path_elem. split.
  - intros (q & Hin & Hgt). split.
    + rewrite <- Hm. apply in_map_iff. now exists (k, q).
    + exists s, from, q. repeat split; trivial.
      * rewrite Forall_forall in Hp.
        apply (Hp (k, q)). now apply list_elem_of_In.
      * unfold gt in Hgt. now destruct (compare q from).
  - intros [Hin (s' & p & q & Hs & Hp' & Hq & Hc)].
    injection Hs as <-. rewrite Es in Hp'. injection Hp' as <-.
    rewrite <- Hm in Hin. apply in_map_iff in Hin as ([k' q'] & E & Hin).
    cbn in E. subst k'. exists q'. split; [exact Hin|].
    rewrite Forall_forall in Hp.
    pose proof (Hp (k, q') (proj2 (list_elem_of_In _ _) Hin)) as Hq'.
    cbn in Hq'. rewrite Hq in Hq'. injection Hq' as <-.
    unfold gt. now rewrite Hc.
Qed.

End MigrationFacts.

(** * Facts about the runs of the service *)

Module RunFacts.
Import JS Props Storage.

Lemma replay_app a b data : replay (a ++ b) data = replay b (replay a data).
Proof. apply fold_left_app. Qed.

Lemma quiet_run_refl w : quiet_run w w.
Proof.
  exists []. rewrite app_nil_r. repeat split. constructor.
Qed.

Lemma quiet_run_trans w1 w2 w3 :
  quiet_run w1 w2 -> quiet_run w2 w3 -> quiet_run w1 w3.
Proof.
  intros (e1 & T1 & F1 & S1 & D1) (e2 & T2 & F2 & S2 & D2).
  exists (e1 ++ e2). repeat split.
  - now rewrite T2, T1, app_assoc.
  - now apply Forall_app.
  - now rewrite S2, S1, replay_app.
  - congruence.
Qed.

Lemma quiet_ret {A} (a : A) : quiet (mret a).
Proof. intros w. apply quiet_run_refl. Qed.

Lemma quiet_lift {A} (r : result A) : quiet (lift r).
Proof. intros w. apply quiet_run_refl. Qed.

Lemma quiet_bind {A B} (m : async A) (k : A -> async B) :
  quiet m -> (forall a, quiet (k a)) -> quiet (m ≫= k).
Proof.
  intros Hm Hk w. specialize (Hm w).
  unfold mbind, async_mbind, async_bind.
  destruct (m w) as [[a| |] w1]; cbn in *; trivial.
  eapply quiet_run_trans; [exact Hm|apply Hk].
Qed.

Lemma quiet_load key : quiet (load key).
Proof.
  intros w. unfold load, when, Adapter.read.
  unfold mbind, async_mbind, async_bind.
  destruct (JSON.parse _); apply quiet_run_refl.
Qed.

Lemma quiet_save_userList v : quiet (save "userList" v).
Proof.
  intros w. exists [EvSetItem "userList" (ToString (stringify v))].
  repeat split. repeat constructor.
Qed.

Lemma quiet_clear : quiet clear.
Proof.
  intros w. exists [EvClear]. repeat split. repeat constructor.
Qed.

Section steps.
Variable WavesApp_version : string.
Variable DASH XMR : string.
Variable tsUtils_set : value -> string -> value -> result value.
Variable tsUtils_unset : value -> string -> result value.

Create HintDb quiet.
Local Hint Resolve quiet_load quiet_save_userList quiet_clear
  quiet_ret quiet_lift : quiet.

Ltac quiet_step :=
  repeat first
    [ apply quiet_bind; [auto with quiet|intros ?]
    | match goal with |- quiet (if ?b then _ else _) => destruct b end
    | solve [auto with quiet] ].

Lemma quiet_migrate_1_0_0 : quiet migrate_1_0_0.
Proof. unfold migrate_1_0_0. quiet_step. Qed.

Lemma quiet_migrate_1_0_0_beta_23 :
  quiet (migrate_1_0_0_beta_23 tsUtils_set).
Proof. unfold migrate_1_0_0_beta_23. quiet_step. Qed.

Lemma quiet_addNewGateway gateway : quiet (addNewGateway gateway).
Proof. unfold addNewGateway. quiet_step. Qed.

Lemma quiet_migrate_1_0_0_beta_47 :
  quiet (migrate_1_0_0_beta_47 tsUtils_unset).
Proof. unfold migrate_1_0_0_beta_47. quiet_step. Qed.

Lemma quiet_MIGRATION_MAP :
  Forall (fun kf => quiet (snd kf))
    (MIGRATION_MAP DASH XMR tsUtils_set tsUtils_unset).
Proof.
  repeat constructor; cbn [snd];
    auto using quiet_migrate_1_0_0, quiet_migrate_1_0_0_beta_23,
      quiet_addNewGateway, quiet_migrate_1_0_0_beta_47.
Qed.
End steps.

Lemma step_of_In table v f : step_of table v = Some f -> In (v, f) table.
Proof.
  induction table as [|[k g] table IH]; cbn; [discriminate|].
  destruct (String.eqb k v) eqn:E.
  - apply String.eqb_eq in E. intros [= ->]. subst. now left.
  - intros H. right. now apply IH.
Qed.

Lemma step_of_key table v : In v (map fst table) ->
  exists f, step_of table v = Some f.
Proof.
  induction table as [|[k g] table IH]; cbn; [easy|].
  destruct (String.eqb k v) eqn:E; [eauto|].
  intros [->|H]; [|now apply IH].
  rewrite String.eqb_refl in E. discriminate.
Qed.

Lemma bound_step_found table v f :
  step_of table v = Some f -> bound_step table v = Ok (instrument v f).
Proof. unfold bound_step. now intros ->. Qed.

Lemma bound_step_missing table v :
  step_of table v = None -> bound_step table v = Throw.
Proof. unfold bound_step. now intros ->. Qed.

(** Every planned version that is a key of the table has its step. *)
Lemma traverse_bound_step table vs :
  (forall v, In v vs -> In v (map fst table)) ->
  exists steps, traverse (bound_step table) vs = Ok steps.
Proof.
  induction vs as [|v vs IH]; intros H; [now exists []|].
  destruct (step_of_key table v) as [f Hf]; [apply H; now left|].
  destruct IH as [steps Hs]; [intros; apply H; now right|].
  exists (instrument v f :: steps). cbn [traverse].
  rewrite (bound_step_found _ _ _ Hf), Hs. reflexivity.
Qed.

(** The trace of the chain. *)
Lemma chainCall_run table :
  Forall (fun kf => quiet (snd kf)) table ->
  forall vs steps, traverse (bound_step table) vs = Ok steps ->
  forall w, exists evs,
    chain_trace vs (fst (chainCall steps w)) evs /\
    trace (snd (chainCall steps w)) = trace w ++ evs /\
    localStorage (snd (chainCall steps w)) = replay evs (localStorage w) /\
    isNewDefer (snd (chainCall steps w)) = isNewDefer w.
Proof.
  intros Hq. induction vs as [|v vs IH]; intros steps Ht w.
  - injection Ht as <-. exists []. cbn. rewrite app_nil_r.
    repeat split. constructor.
  - cbn [traverse] in Ht.
    destruct (step_of table v) as [f|] eqn:Ef;
      [rewrite (bound_step_found _ _ _ Ef) in Ht
      |rewrite (bound_step_missing _ _ Ef) in Ht; discriminate Ht].
    cbn in Ht.
    destruct (traverse (bound_step table) vs) as [rest| |] eqn:Er;
      try discriminate Ht.
    cbn in Ht. injection Ht as <-.
    assert (Hf : quiet f).
    { rewrite Forall_forall in Hq.
      apply (Hq (v, f)). apply list_elem_of_In. now apply step_of_In. }
    specialize (Hf (record (EvStepBegin v) w)).
    cbn [chainCall]. unfold mbind, async_mbind, async_bind, instrument.
    destruct (f (record (EvStepBegin v) w)) as [[[]| |] w1];
      destruct Hf as (body & T & F & S & D); cbn in T, S, D.
    + destruct (IH rest eq_refl (record (EvStepDone v) w1))
        as (evs & C & T' & S' & D').
      exists (EvStepBegin v :: body ++ EvStepDone v :: evs).
      split; [now constructor|]. cbn in T', S', D'.
      rewrite T', S', D', T, S, D. repeat split.
      * now rewrite <- !app_assoc.
      * cbn. now rewrite replay_app.
    + exists (EvStepBegin v :: body ++ [EvStepFailed v]).
      split; [now constructor|]. cbn. rewrite T, S, D. repeat split.
      * now rewrite <- !app_assoc.
      * now rewrite replay_app.
    + exists (EvStepBegin v :: body).
      split; [now constructor|]. cbn. rewrite T, S, D. repeat split.
      now rewrite <- !app_assoc.
Qed.

(** *** Reading a trace *)

Lemma begun_app a b : begun (a ++ b) = begun a ++ begun b.
Proof.
  induction a as [|[ ] a IH]; cbn; trivial. now rewrite IH.
Qed.

Lemma done_steps_app a b : done_steps (a ++ b) = done_steps a ++ done_steps b.
Proof.
  induction a as [|[ ] a IH]; cbn; trivial. now rewrite IH.
Qed.

Lemma resolutions_app a b :
  resolutions (a ++ b) = resolutions a ++ resolutions b.
Proof.
  induction a as [|[ ] a IH]; cbn; trivial. now rewrite IH.
Qed.

Lemma step_events_app a b :
  step_events (a ++ b) = step_events a ++ step_events b.
Proof.
  induction a as [|[ ] a IH]; cbn; trivial; now rewrite IH.
Qed.

Lemma store_events_silent body :
  Forall store_event body ->
  begun body = [] /\ done_steps body = [] /\ resolutions body = [] /\
  step_events body = [].
Proof.
  induction 1 as [|e body He _ IH]; [now repeat split|].
  destruct e; cbn in He |- *; try contradiction; exact IH.
Qed.

Ltac silence H :=
  let B := fresh "B" in let Dn := fresh "Dn" in
  let R := fresh "R" in let St := fresh "St" in
  destruct (store_events_silent _ H) as (B & Dn & R & St).

(** A chain resolves nothing; its steps go one at a time, in the planned
    order, and stop at the first that does not get done. *)
Lemma chain_trace_shape vs r evs :
  chain_trace vs r evs ->
  resolutions evs = [] /\
  one_at_a_time (step_events evs) /\
  (exists rest, vs = begun evs ++ rest) /\
  match r with
  | Ok _ => begun evs = vs /\ done_steps evs = vs /\
            forall v, ~ In (EvStepFailed v) evs
  | Throw => exists v pre, evs = pre ++ [EvStepFailed v] /\
               begun evs = done_steps evs ++ [v] /\
               forall v', In (EvStepFailed v') evs -> v' = v
  | Unmodelled => forall v, ~ In (EvStepFailed v) evs
  end.
Proof.
  assert (Hnf : forall body v, Forall store_event body ->
                  ~ In (EvStepFailed v) body).
  { intros body v Hb Hin. rewrite Forall_forall in Hb.
    apply (Hb (EvStepFailed v)). now apply list_elem_of_In. }
  induction 1 as [|v vs r body evs Hb Hc IH|v vs body Hb|v vs body Hb].
  - repeat split; try reflexivity. now exists []. intros v [].
  - silence Hb. destruct IH as (IR & IO & [rest IP] & IM).
    cbn [resolutions begun done_steps step_events].
    rewrite resolutions_app, step_events_app, begun_app, done_steps_app.
    rewrite B, Dn, R, St. cbn. rewrite IR.
    split; [reflexivity|]. split; [now split|].
    split; [exists rest; now rewrite IP at 1|].
    destruct r as [[]| |].
    + destruct IM as (IB & ID & IF). rewrite IB, ID.
      repeat split. intros v' [Hv|Hv]; [discriminate|].
      apply in_app_or in Hv as [Hv|[Hv|Hv]];
        [now apply (Hnf body v')|discriminate|now apply (IF v')].
    + destruct IM as (v' & pre & -> & IB & IF).
      exists v', (EvStepBegin v :: body ++ EvStepDone v :: pre).
      split; [cbn; now rewrite <- app_assoc|].
      split; [now rewrite IB|].
      intros v'' [Hv|Hv]; [discriminate|].
      apply in_app_or in Hv as [Hv|[Hv|Hv]];
        [now destruct (Hnf body v'')|discriminate|now apply IF].
    + intros v' [Hv|Hv]; [discriminate|].
      apply in_app_or in Hv as [Hv|[Hv|Hv]];
        [now apply (Hnf body v')|discriminate|now apply (IM v')].
  - silence Hb.
    cbn [resolutions begun done_steps step_events].
    rewrite resolutions_app, step_events_app, begun_app, done_steps_app.
    rewrite B, Dn, R, St. cbn.
    split; [reflexivity|]. split; [reflexivity|].
    split; [now exists vs|].
    exists v, (EvStepBegin v :: body). repeat split.
    intros v' [Hv|Hv]; [discriminate|].
    apply in_app_or in Hv as [Hv|[Hv|[]]];
      [now destruct (Hnf body v')|now injection Hv].
  - silence Hb. cbn [resolutions begun done_steps step_events].
    rewrite B, R, St.
    split; [reflexivity|]. split; [exact I|].
    split; [now exists vs|].
    intros v' [Hv|Hv]; [discriminate|now apply (Hnf body v')].
Qed.

Lemma chain_trace_writes vs r evs :
  chain_trace vs r evs -> Forall writes_only_userList evs.
Proof.
  assert (Hs : forall body, Forall store_event body ->
                 Forall writes_only_userList body).
  { intros body Hb. eapply Forall_impl; [exact Hb|]. now intros [ ]. }
  induction 1; repeat first
    [ apply Forall_nil_2 | apply Forall_cons_2 | apply Forall_app_2
    | exact I | now apply Hs | assumption ].
Qed.

Lemma load_unfold key w :
  load key w =
    (match JSON.parse (LocalStorage.getItem key (localStorage w)) with
     | Ok v => Ok v
     | Throw => Ok (LocalStorage.getItem key (localStorage w))
     | Unmodelled => Unmodelled
     end, w).
Proof.
  unfold load, when, Adapter.read, mbind, async_mbind, async_bind.
  now destruct (JSON.parse (LocalStorage.getItem key (localStorage w))).
Qed.

Lemma reading_unfold key data :
  reading key data =
    match JSON.parse (LocalStorage.getItem key data) with
    | Ok v => Ok v
    | Throw => Ok (LocalStorage.getItem key data)
    | Unmodelled => Unmodelled
    end.
Proof. unfold reading. now rewrite load_unfold. Qed.

Lemma reading_run key w : load key w = (reading key (localStorage w), w).
Proof. now rewrite load_unfold, reading_unfold. Qed.

(** [load] does not reject: a text that is not JSON comes back as it
    is. *)
Lemma reading_not_Throw key data : reading key data <> Throw.
Proof.
  rewrite reading_unfold.
  now destruct (JSON.parse (LocalStorage.getItem key data)).
Qed.

Lemma reading_absent key data :
  data !! key = None -> reading key data = Ok VNull.
Proof.
  intros H. rewrite reading_unfold. unfold LocalStorage.getItem.
  now rewrite H.
Qed.

Lemma reading_text key data text :
  data !! key = Some text -> JSON.parse (VStr text) = Throw ->
  reading key data = Ok (VStr text).
Proof.
  intros H Hp. rewrite reading_unfold. unfold LocalStorage.getItem.
  now rewrite H, Hp.
Qed.

Lemma reading_json key data text v :
  data !! key = Some text -> JSON.parse (VStr text) = Ok v ->
  reading key data = Ok v.
Proof.
  intros H Hp. rewrite reading_unfold. unfold LocalStorage.getItem.
  now rewrite H, Hp.
Qed.

Section construct.
Variable ver : string.
Variable table : list (string * async unit).
Hypothesis Htable : Forall (fun kf => quiet (snd kf)) table.

Lemma construct_unmodelled data :
  reading "lastVersion" data = Unmodelled ->
  construct ver table (boot data) = (Unmodelled, boot data).
Proof.
  intros H. unfold construct, mbind, async_mbind, async_bind.
  rewrite reading_run. unfold boot at 1. cbn [localStorage]. now rewrite H.
Qed.

Lemma construct_fresh data prior :
  reading "lastVersion" data = Ok prior -> truthy prior = false ->
  construct ver table (boot data) =
    (Ok tt,
     World (<["lastVersion"%string := ver]> data) (Some prior) (Some prior)
       [EvSetItem "lastVersion" ver; EvResolve prior]).
Proof.
  intros H Hf. unfold construct, mbind, async_mbind, async_bind.
  rewrite reading_run. unfold boot at 1. cbn [localStorage]. rewrite H. cbn. now rewrite Hf.
Qed.

Lemma construct_no_path data prior :
  reading "lastVersion" data = Ok prior -> truthy prior = true ->
  Migration.migrateFrom prior (map fst table) = Unmodelled ->
  construct ver table (boot data) =
    (Unmodelled,
     World (<["lastVersion"%string := ver]> data) None (Some prior)
       [EvSetItem "lastVersion" ver]).
Proof.
  intros H Hf Hm. unfold construct, mbind, async_mbind, async_bind.
  rewrite reading_run. unfold boot at 1. cbn [localStorage]. rewrite H. cbn. now rewrite Hf, Hm.
Qed.

Lemma migrateFrom_not_Throw prior ks :
  Migration.migrateFrom prior ks <> Throw.
Proof.
  unfold Migration.migrateFrom. destruct prior; try discriminate.
  destruct (Migration.parse s); [|discriminate].
  destruct (Migration.keyed ks); discriminate.
Qed.

Lemma construct_upgrade data prior vs :
  reading "lastVersion" data = Ok prior -> truthy prior = true ->
  Migration.migrateFrom prior (map fst table) = Ok vs ->
  exists evs,
    let r := fst (construct ver table (boot data)) in
    let w := snd (construct ver table (boot data)) in
    chain_trace vs r evs /\
    trace w = EvSetItem "lastVersion" ver :: evs ++
              match r with Ok _ => [EvResolve prior] | _ => [] end /\
    isNewDefer w = match r with Ok _ => Some prior | _ => None end /\
    localStorage w = replay (trace w) data.
Proof.
  intros H Hf Hm.
  destruct (traverse_bound_step table vs) as [steps Hs].
  { intros v Hv.
    now apply (MigrationFacts.migrateFrom_spec _ _ _ Hm). }
  set (w2 := World (<["lastVersion"%string := ver]> data) None (Some prior)
               [EvSetItem "lastVersion" ver]).
  assert (E : construct ver table (boot data) =
              match chainCall steps w2 with
              | (Ok _, w') => resolve prior w'
              | (Throw, w') => (Throw, w')
              | (Unmodelled, w') => (Unmodelled, w')
              end).
  { unfold construct, mbind, async_mbind, async_bind.
    rewrite reading_run. unfold boot at 1. cbn [localStorage].
    rewrite H. cbn. now rewrite Hf, Hm, Hs. }
  rewrite E. clear E.
  destruct (chainCall_run table Htable vs steps Hs w2)
    as (evs & C & T & S & D).
  exists evs.
  destruct (chainCall steps w2) as [[[]| |] w1];
    cbn in C, T, S, D |- *; rewrite ?T, ?S, ?D; repeat split; trivial;
    cbn; rewrite ?replay_app; cbn; rewrite ?app_nil_r; reflexivity.
Qed.

(** The trace of the constructor, whatever happens: it is empty, or
    it opens with the write of [lastVersion] and then only [userList]
    is ever written. *)
Lemma construct_trace_form data :
  let w := snd (construct ver table (boot data)) in
  localStorage w = replay (trace w) data /\
  (trace w = [] \/
   exists rest, trace w = EvSetItem "lastVersion" ver :: rest /\
                Forall writes_only_userList rest).
Proof.
  cbn zeta. destruct (reading "lastVersion" data) as [prior| |] eqn:H.
  - destruct (truthy prior) eqn:Ht.
    + destruct (Migration.migrateFrom prior (map fst table))
        as [vs| |] eqn:Hm.
      * destruct (construct_upgrade data prior vs H Ht Hm)
          as (evs & C & T & _ & S).
        cbn zeta in C, T, S. split; [exact S|]. right.
        eexists. split; [exact T|].
        apply Forall_app_2; [exact (chain_trace_writes _ _ _ C)|].
        destruct (fst (construct ver table (boot data)));
          repeat constructor.
      * now destruct (migrateFrom_not_Throw prior (map fst table)).
      * rewrite (construct_no_path data prior H Ht Hm). cbn.
        split; [reflexivity|]. right. eexists. split; [reflexivity|].
        constructor.
    + rewrite (construct_fresh data prior H Ht). cbn.
      split; [reflexivity|]. right. eexists. split; [reflexivity|].
      repeat constructor.
  - now destruct (reading_not_Throw "lastVersion" data).
  - rewrite (construct_unmodelled data H). cbn. split; [reflexivity|].
    now left.
Qed.

End construct.

(** Events that write only [userList] and do not wipe the store leave
    the value under [lastVersion] in place. *)
Lemma replay_keeps_lastVersion evs : forall data text,
  data !! "lastVersion"%string = Some text ->
  Forall writes_only_userList evs -> ~ In EvClear evs ->
  replay evs data !! "lastVersion"%string = Some text.
Proof.
  induction evs as [|e evs IH]; intros data text Hd Hw Hc; [exact Hd|].
  apply Forall_cons_1 in Hw as [He Hw]. cbn [replay fold_left].
  apply IH; [|exact Hw|intros Hin; apply Hc; now right].
  destruct e; cbn in He |- *; trivial.
  - subst key. now rewrite lookup_insert_ne.
  - destruct Hc. now left.
Qed.


End RunFacts.

(** * What the parser builds *)

Module ParserFacts.
Import JS JSON Props StoreProps.

Lemma bind_Ok {A B} (m : result A) (k : A -> result B) b :
  m ≫= k = Ok b -> exists a, m = Ok a /\ k a = Ok b.
Proof. destruct m as [a| |]; try discriminate. intros H. now exists a. Qed.

Lemma existsb_eqb_sym k l :
  existsb (String.eqb k) l = existsb (fun k' => String.eqb k' k) l.
Proof.
  induction l as [|x l IH]; cbn; [reflexivity|].
  now rewrite IH, String.eqb_sym.
Qed.

Lemma unique_keys_snoc l k :
  unique_keys l = true -> existsb (fun k' => String.eqb k' k) l = false ->
  unique_keys (l ++ [k]) = true.
Proof.
  induction l as [|x l IH]; cbn; [reflexivity|].
  rewrite !andb_true_iff, !negb_true_iff, orb_false_iff.
  intros [Hx Hl] [Hk Hr]. split; [|now apply IH].
  rewrite existsb_app. cbn. now rewrite Hx, Hk.
Qed.

Lemma set_own_keys acc k v :
  map fst (set_own acc k v) =
    if existsb (fun k' => String.eqb k' k) (map fst acc)
    then map fst acc else map fst acc ++ [k].
Proof.
  induction acc as [|[k' w] acc IH]; cbn; [reflexivity|].
  destruct (String.eqb k' k); cbn; [reflexivity|].
  rewrite IH. now destruct (existsb _ (map fst acc)).
Qed.

Lemma set_own_unique acc k v :
  unique_keys (map fst acc) = true ->
  unique_keys (map fst (set_own acc k v)) = true.
Proof.
  intros H. rewrite set_own_keys.
  destruct (existsb _ (map fst acc)) eqn:E; [exact H|].
  now apply unique_keys_snoc.
Qed.

Lemma set_own_forallb (P : value -> bool) acc k v :
  forallb (fun kv => P (snd kv)) acc = true -> P v = true ->
  forallb (fun kv => P (snd kv)) (set_own acc k v) = true.
Proof.
  intros Ha Hv. induction acc as [|[k' w] acc IH]; cbn in *.
  - now rewrite Hv.
  - apply andb_true_iff in Ha as [Hw Ha].
    destruct (String.eqb k' k); cbn; [now rewrite Hv|].
    now rewrite Hw, IH.
Qed.

Lemma finish_number_exact negative u r v r' :
  finish_number negative u r = Ok (v, r', true) -> serializable v = true.
Proof.
  unfold finish_number. intros H.
  apply bind_Ok in H as ([frac r1] & _ & H).
  apply bind_Ok in H as ([ex r2] & _ & H).
  injection H as <- _ H. cbn.
  now apply andb_true_iff in H as [_ H].
Qed.

Lemma parse_number_exact s v r :
  parse_number s = Ok (v, r, true) -> serializable v = true.
Proof.
  unfold parse_number.
  destruct (match s with
            | [] => (false, s)
            | c :: r0 =>
                if (N_of_ascii c =? 45)%N then (true, r0) else (false, s)
            end) as [negative s1].
  destruct (read_digits s1) as [u r0].
  destruct u as [|u|u|u|u|u|u|u|u|u|u]; try discriminate;
    try apply finish_number_exact.
  destruct u; try discriminate. apply finish_number_exact.
Qed.

Lemma parse_literal_exact word v s v' r :
  serializable v = true ->
  parse_literal word v s = Ok (v', r, true) -> serializable v' = true.
Proof.
  unfold parse_literal. intros Hv.
  destruct (strip_prefix (chars word) s); [|discriminate].
  now intros [= <- _].
Qed.

(** A value read exactly is one that can be written back. *)
Lemma parse_exact fuel :
  (forall s v r, parse_value fuel s = Ok (v, r, true) ->
                 serializable v = true) /\
  (forall s l r, parse_elems fuel s = Ok (l, r, true) ->
                 forallb serializable l = true) /\
  (forall s acc l r, parse_members fuel s acc = Ok (l, r, true) ->
                     members_ok acc -> members_ok l).
Proof.
  induction fuel as [|fuel (IHv & IHe & IHm)];
    [repeat split; discriminate|].
  split; [|split].
  - intros s v r. cbn [parse_value].
    destruct (skip_ws s) as [|c t]; [discriminate|]. cbv zeta.
    destruct (N_of_ascii c =? 34)%N.
    { intros H. apply bind_Ok in H as ([[str r'] e] & _ & H).
      now injection H as <- _ _. }
    destruct (N_of_ascii c =? 91)%N.
    { destruct (skip_ws t) as [|c' t']; [discriminate|].
      destruct (N_of_ascii c' =? 93)%N; [now intros [= <- _]|].
      intros H. apply bind_Ok in H as ([[l r'] e] & Hl & H).
      injection H as <- _ ->. cbn. exact (IHe _ _ _ Hl). }
    destruct (N_of_ascii c =? 123)%N.
    { destruct (skip_ws t) as [|c' t']; [discriminate|].
      destruct (N_of_ascii c' =? 125)%N; [now intros [= <- _]|].
      intros H. apply bind_Ok in H as ([[l r'] e] & Hl & H).
      injection H as <- _ ->. cbn.
      destruct (IHm _ _ _ _ Hl (conj eq_refl eq_refl)) as [Ha Hu].
      now rewrite Ha, Hu. }
    destruct (N_of_ascii c =? 116)%N; [now apply parse_literal_exact|].
    destruct (N_of_ascii c =? 102)%N; [now apply parse_literal_exact|].
    destruct (N_of_ascii c =? 110)%N; [now apply parse_literal_exact|].
    apply parse_number_exact.
  - intros s l r. cbn [parse_elems]. intros H.
    apply bind_Ok in H as ([[v r1] e] & Hv & H).
    destruct (skip_ws r1) as [|c t]; [discriminate|]. cbv zeta in H.
    destruct (N_of_ascii c =? 44)%N.
    + apply bind_Ok in H as ([[l' r2] e'] & Hl & H).
      injection H as <- _ H. apply andb_true_iff in H as [-> ->].
      cbn. now rewrite (IHv _ _ _ Hv), (IHe _ _ _ Hl).
    + destruct (N_of_ascii c =? 93)%N; [|discriminate].
      injection H as <- _ ->. cbn. now rewrite (IHv _ _ _ Hv).
  - intros s acc l r. cbn [parse_members].
    destruct (skip_ws s) as [|c t]; [discriminate|].
    destruct (N_of_ascii c =? 34)%N; [|discriminate].
    intros H [Ha Hu].
    apply bind_Ok in H as ([[key r1] e1] & _ & H).
    destruct (skip_ws r1) as [|c1 r2]; [discriminate|].
    destruct (N_of_ascii c1 =? 58)%N; [|discriminate].
    apply bind_Ok in H as ([[v r3] e2] & Hv & H). cbv zeta in H.
    destruct (skip_ws r3) as [|c2 r4]; [discriminate|].
    destruct (N_of_ascii c2 =? 44)%N.
    + apply bind_Ok in H as ([[l' r5] e3] & Hl & H).
      injection H as <- _ H.
      apply andb_true_iff in H as [H ->].
      apply andb_true_iff in H as [-> ->].
      apply (IHm _ _ _ _ Hl). split.
      * apply set_own_forallb; [exact Ha|exact (IHv _ _ _ Hv)].
      * now apply set_own_unique.
    + destruct (N_of_ascii c2 =? 125)%N; [|discriminate].
      injection H as <- _ H. apply andb_true_iff in H as [-> ->].
      split.
      * apply set_own_forallb; [exact Ha|exact (IHv _ _ _ Hv)].
      * now apply set_own_unique.
Qed.

Lemma parse_serializable text v :
  JSON.parse text = Ok v -> serializable v = true.
Proof.
  unfold JSON.parse, parse_text. intros H.
  apply bind_Ok in H as ([[v' r] e] & Hv & H).
  destruct (skip_ws r); [|discriminate].
  destruct e; [|discriminate]. injection H as <-.
  exact (proj1 (parse_exact _) _ _ _ Hv).
Qed.

End ParserFacts.

(** * The definitions at work *)

Module Sanity.
Import JS Props Storage Examples.

Example parse_array_with_spaces :
  JSON.parse (VStr " [1 , -20,[ ], { } ,true, null ] ") =
    Ok (VArr [VNum (NInt 1); VNum (NInt (-20)); VArr []; VObj [];
              VBool true; VNull]).
Proof. reflexivity. Qed.

Example parse_null_value : JSON.parse VNull = Ok VNull.
Proof. reflexivity. Qed.

Example parse_version_throws : JSON.parse (VStr "1.0.0-beta.47") = Throw.
Proof. reflexivity. Qed.

Example parse_leading_zero_throws : JSON.parse (VStr "01") = Throw.
Proof. reflexivity. Qed.

Example parse_empty_throws : JSON.parse (VStr EmptyString) = Throw.
Proof. reflexivity. Qed.

Example parse_fraction_unmodelled : JSON.parse (VStr "1.5") = Unmodelled.
Proof. reflexivity. Qed.

Example parse_beyond_safe_unmodelled :
  JSON.parse (VStr "9007199254740992") = Unmodelled.
Proof. reflexivity. Qed.

Example parse_duplicate_key :
  JSON.parse_text
    (chars "{" ++ JSON.quote "a" ++ chars ":1," ++ JSON.quote "b" ++
     chars ":2," ++ JSON.quote "a" ++ chars ":3}") =
    Ok (VObj [("a"%string, VNum (NInt 3)); ("b"%string, VNum (NInt 2))]).
Proof. reflexivity. Qed.

Example parse_escaped_control :
  JSON.parse (JSON.stringify
                (VArr [VObj [("a"%string, VNum (NInt 1))];
                       VStr "line
break"])) =
    Ok (VArr [VObj [("a"%string, VNum (NInt 1))]; VStr "line
break"]).
Proof. reflexivity. Qed.

Example stringify_number : stringify (VNum (NInt (-42))) = VStr "-42".
Proof. reflexivity. Qed.

Example stringify_undefined : stringify VUndefined = VStr "undefined".
Proof. reflexivity. Qed.

Example stringify_array_slots :
  stringify (VArr [VUndefined; VNum NNaN; VBool false]) =
    VStr "[null,null,false]".
Proof. reflexivity. Qed.

(** Outside the JSON-serializable values the round trip is lost:
    [undefined] and [NaN] come back as strings. *)
Example undefined_comes_back_as_text :
  fst (load "k" (snd (save "k" VUndefined (boot ∅)))) = Ok (VStr "undefined").
Proof. reflexivity. Qed.

Example NaN_comes_back_as_text :
  fst (load "k" (snd (save "k" (VNum NNaN) (boot ∅)))) = Ok (VStr "NaN").
Proof. reflexivity. Qed.

(** A string that is JSON comes back decoded. *)
Example json_string_comes_back_decoded :
  fst (load "k" (snd (save "k" (VStr "123") (boot ∅)))) = Ok (VNum (NInt 123)).
Proof. reflexivity. Qed.

Example path_from_release :
  Migration.migrateFrom (VStr "1.0.0")
    (map fst (MIGRATION_MAP "DASH" "XMR" tsUtils_set tsUtils_unset)) = Ok [].
Proof. reflexivity. Qed.

Example path_from_beta_36 :
  Migration.migrateFrom (VStr "1.0.0-beta.36")
    (map fst (MIGRATION_MAP "DASH" "XMR" tsUtils_set tsUtils_unset)) =
    Ok ["1.0.0-beta.40"; "1.0.0-beta.47"; "1.0.0"]%string.
Proof. reflexivity. Qed.

Example path_numeric_identifiers :
  Migration.migrateFrom (VStr "1.0.0-beta.9")
    ["1.0.0-beta.10"; "1.0.0-beta.8"; "1.0.0-alpha"; "1.0.0-rc.1"]%string =
    Ok ["1.0.0-beta.10"; "1.0.0-rc.1"]%string.
Proof. reflexivity. Qed.

Example path_of_a_number_unmodelled :
  Migration.migrateFrom (VNum (NInt 1)) ["1.0.0"%string] = Unmodelled.
Proof. reflexivity. Qed.

Example upgrade_trace :
  map (fun e => match e with
                | EvSetItem k _ => EvSetItem k EmptyString
                | _ => e
                end) (trace (snd (start beta_store))) =
    [EvSetItem "lastVersion" EmptyString;
     EvStepBegin "1.0.0-beta.35"; EvSetItem "userList" EmptyString;
     EvStepDone "1.0.0-beta.35";
     EvStepBegin "1.0.0-beta.40"; EvSetItem "userList" EmptyString;
     EvStepDone "1.0.0-beta.40";
     EvStepBegin "1.0.0-beta.47"; EvSetItem "userList" EmptyString;
     EvStepDone "1.0.0-beta.47";
     EvStepBegin "1.0.0"; EvStepDone "1.0.0";
     EvResolve (VStr "1.0.0-beta.30")].
Proof. reflexivity. Qed.

Example upgrade_user_list :
  reading "userList" (localStorage (snd (start beta_store))) =
    Ok (VArr
          [VObj [("address"%string, VStr "3PAbc");
                 ("encryptedSeed"%string, VStr "U2FsdGVk");
                 ("settings"%string,
                  VObj [("pinnedAssetIdList"%string,
                         VArr [VStr "WAVES"; VStr "BTC"; VStr "DASH";
                               VStr "XMR"])])]]).
Proof. reflexivity. Qed.

Example legacy_conversion :
  fst (start legacy_store) = Ok tt /\
  reading "userList" (localStorage (snd (start legacy_store))) =
    Ok (VArr
          [VObj [("address"%string, VStr "3PAbc");
                 ("encryptedSeed"%string, VStr "U2FsdGVk");
                 ("settings"%string,
                  VObj [("encryptionRounds"%string, VNum (NInt 1000))])]]) /\
  reading "Wavesmainnet" (localStorage (snd (start legacy_store))) = Ok VNull.
Proof. repeat split; reflexivity. Qed.

Example broken_store_rejects :
  fst (start broken_store) = Throw /\
  trace (snd (start broken_store)) =
    [EvSetItem "lastVersion" "1.0.1"; EvStepBegin "1.0.0-beta.23";
     EvStepFailed "1.0.0-beta.23"].
Proof. split; reflexivity. Qed.

Example two_begins_are_not_one_at_a_time :
  ~ one_at_a_time [EvStepBegin "a"; EvStepBegin "b"; EvStepDone "b"].
Proof. intros H. exact H. Qed.

End Sanity.

(** * The adapter: what is saved is what is loaded *)

Module StorageTheorems.
Import JS Props Storage RunFacts.

Lemma save_run key v w :
  save key v w =
    (Ok tt,
     World (<[key := ToString (stringify v)]> (localStorage w))
       (isNewDefer w) (lastOpenVersion w)
       (trace w ++ [EvSetItem key (ToString (stringify v))])).
Proof. reflexivity. Qed.

Lemma clear_run w :
  clear w =
    (Ok tt, World ∅ (isNewDefer w) (lastOpenVersion w) (trace w ++ [EvClear])).
Proof. reflexivity. Qed.

(** Outside strings, [Storage.stringify] writes the JSON text of the
    value. *)
Lemma stringify_text v :
  typeof v <> TString -> serializable v = true ->
  ToString (stringify v) = string_of_list_ascii (JSON.print v).
Proof.
  intros Ht Hs.
  destruct v as [| |[|]|[z| |]|s|l|l]; try discriminate Hs; try reflexivity.
  now contradiction Ht.
Qed.



(** C7: for every key and every string that is not valid JSON,
    [save(k, s)] followed by [load(k)] gives back [s] unchanged; and no
    [load] rejects: the decode failure is absorbed. *)
Theorem save_then_load_raw_string (key s : string) (w : world) :
  JSON.parse (VStr s) = Throw ->
  fst (load key (snd (save key (VStr s) w))) = Ok (VStr s) /\
  (forall w', localStorage w' !! key = Some s ->
              fst (load key w') = Ok (VStr s)) /\
  (forall key' w', fst (load key' w') <> Throw).
Proof.
  intros Hp. split; [|split].
  - rewrite save_run. cbn [snd]. rewrite reading_run. cbn [fst localStorage].
    apply reading_text; [apply lookup_insert_eq|exact Hp].
  - intros w' Hw. rewrite reading_run. cbn [fst].
    now apply reading_text.
  - intros key' w'. rewrite reading_run. apply reading_not_Throw.
Qed.

Lemma save_then_load_raw_string_witness :
  JSON.parse (VStr "1.0.0-beta.47") = Throw /\
  fst (load "lastVersion"
         (snd (save "lastVersion" (VStr "1.0.0-beta.47") (boot ∅)))) =
    Ok (VStr "1.0.0-beta.47").
Proof.
  split; [reflexivity|].
  exact (proj1 (save_then_load_raw_string "lastVersion" "1.0.0-beta.47"
                  (boot ∅) eq_refl)).
Defined.

(** C9: [clear()] erases every persisted key: after it the store is
    empty and [load(k)], for a key saved before as for any other, gives
    [null], the result of a key that is absent. *)
Theorem clear_then_load (key : string) (v : value) (w : world) :
  let saved := snd (save key v w) in
  let cleared := snd (clear saved) in
  fst (clear saved) = Ok tt /\
  localStorage cleared = ∅ /\
  (forall k, fst (load k cleared) = Ok VNull).
Proof.
  cbn zeta. rewrite save_run, clear_run. cbn [fst snd localStorage].
  split; [reflexivity|]. split; [reflexivity|].
  intros k. rewrite reading_run. cbn [fst localStorage].
  apply reading_absent. apply lookup_empty.
Qed.

(** Outside the browser the value for an absent key is the bridge's: a
    bridge that answers [undefined] makes [read] answer [undefined],
    where [localStorage] makes it answer [null]. *)
Lemma bridge_read_undefined readStorage key w w' :
  readStorage key w = (Ok VUndefined, w') ->
  Bridge.read readStorage key w = (Ok VUndefined, w').
Proof.
  intros H. unfold Bridge.read, mbind, async_mbind, async_bind.
  now rewrite H.
Qed.

Lemma bridge_read_not_Throw readStorage key w :
  fst (readStorage key w) <> Throw ->
  fst (Bridge.read readStorage key w) <> Throw.
Proof.
  unfold Bridge.read, mbind, async_mbind, async_bind.
  destruct (readStorage key w) as [[res| |] w']; cbn [fst]; trivial.
  intros _. destruct (JSON.parse res); discriminate.
Qed.

End StorageTheorems.

(** * The migration steps *)

Module StepTheorems.
Import JS Props Storage RunFacts.

Lemma get_own_set_own props k v : get_own (set_own props k v) k = Some v.
Proof.
  induction props as [|[k' w] props IH]; cbn.
  - now rewrite String.eqb_refl.
  - destruct (String.eqb k' k) eqn:E; cbn; now rewrite E.
Qed.

Lemma includes_pushed l g :
  existsb (fun e => match e with
                    | VStr s => String.eqb s g
                    | _ => false
                    end) (l ++ [VStr g]) = true.
Proof.
  rewrite existsb_app. cbn. rewrite String.eqb_refl.
  now rewrite orb_true_r.
Qed.

#[local] Arguments string_includes : simpl never.

Ltac crunch :=
  repeat first
    [ progress cbn
    | match goal with H : ?x = _ |- context [?x] => rewrite H end ].

Ltac leaf := first [discriminate | intros [= <-]; crunch; now split].

(** What the callback of [users.forEach] does to a record on which it
    returns. *)
Lemma addNewGateway_user_spec (gateway : string) (user user' : value) :
  addNewGateway_user gateway user = Ok user' ->
  addNewGateway_user gateway user' = Ok user' /\
  match pinned user with
  | Some l =>
      if existsb (fun e => match e with
                           | VStr s => String.eqb s gateway
                           | _ => false
                           end) l
      then user' = user
      else pinned user' = Some (l ++ [VStr gateway])
  | None => user' = user
  end.
Proof.
  unfold addNewGateway_user, pinned.
  destruct user as [| |b|n|s|l|props]; cbn;
    try discriminate; try (intros [= <-]; now split).
  destruct (get_own props "settings") as [st|] eqn:Est; cbn; [|leaf].
  destruct st as [| |[|]|[[|p|p]| |[|]]|[|a s]|l|sprops]; cbn; try leaf.
  destruct (get_own sprops "pinnedAssetIdList") as [ids|] eqn:Eids; cbn;
    [|leaf].
  destruct ids as [| |[|]|[[|p|p]| |[|]]|[|a s]|l|o]; cbn; try leaf.
  - destruct (string_includes (String a s) gateway) eqn:Ei; cbn; leaf.
  - destruct (existsb _ l) eqn:Ei; cbn; [leaf|].
    intros [= <-]. cbn. rewrite !get_own_set_own. cbn.
    rewrite !get_own_set_own. cbn.
    rewrite includes_pushed. now split.
Qed.

(** The same over the whole user list: a second pass changes nothing. *)
Lemma addNewGateway_users_idempotent (gateway : string) users : forall users',
  traverse (addNewGateway_user gateway) users = Ok users' ->
  traverse (addNewGateway_user gateway) users' = Ok users'.
Proof.
  induction users as [|u users IH]; cbn [traverse]; intros users' H.
  - now injection H as <-.
  - destruct (addNewGateway_user gateway u) as [u'| |] eqn:Eu;
      try discriminate H. cbn in H.
    destruct (traverse (addNewGateway_user gateway) users) as [rest| |];
      try discriminate H. cbn in H.
    injection H as <-. cbn [traverse].
    rewrite (proj1 (addNewGateway_user_spec _ _ _ Eu)). cbn.
    now rewrite (IH rest eq_refl).
Qed.

(** C8: the gateway-insertion step is idempotent on a user record.  When
    its callback returns on a record, running it again on the result
    changes nothing, so the gateway is never put in twice; the gateway
    is appended, after the entries already there, exactly when the record
    has a pinned-asset list that does not hold it, and otherwise the
    record is left as it is. *)
Theorem addNewGateway_user_idempotent (gateway : string)
    (user user' : value) :
  addNewGateway_user gateway user = Ok user' ->
  addNewGateway_user gateway user' = Ok user' /\
  match pinned user with
  | Some l =>
      if existsb (fun e => match e with
                           | VStr s => String.eqb s gateway
                           | _ => false
                           end) l
      then user' = user
      else pinned user' = Some (l ++ [VStr gateway])
  | None => user' = user
  end.
Proof. apply addNewGateway_user_spec. Qed.

Lemma addNewGateway_user_idempotent_witness :
  let user := VObj [("address"%string, VStr "3P");
                    ("settings"%string,
                     VObj [("pinnedAssetIdList"%string,
                            VArr [VStr "WAVES"; VStr "BTC"])])] in
  let user' := VObj [("address"%string, VStr "3P");
                     ("settings"%string,
                      VObj [("pinnedAssetIdList"%string,
                             VArr [VStr "WAVES"; VStr "BTC"; VStr "DASH"])])] in
  addNewGateway_user "DASH" user = Ok user' /\
  addNewGateway_user "DASH" user' = Ok user'.
Proof.
  intros user user'. split; [reflexivity|].
  apply (addNewGateway_user_idempotent "DASH" user user'). reflexivity.
Defined.

(** C10: when the legacy key [Wavesmainnet] loads as a falsy value, the
    [1.0.0] step is fulfilled and leaves the world as it was: no wipe, no
    write, every stored entry unchanged.  The step changes anything only
    when the legacy data is truthy. *)
Theorem migrate_1_0_0_without_legacy (w : world) (data : value) :
  fst (load "Wavesmainnet" w) = Ok data ->
  (truthy data = false -> migrate_1_0_0 w = (Ok tt, w)) /\
  (snd (migrate_1_0_0 w) <> w -> truthy data = true).
Proof.
  intros Hl. rewrite reading_run in Hl. cbn [fst] in Hl.
  assert (H : truthy data = false -> migrate_1_0_0 w = (Ok tt, w)).
  { intros Hf. unfold migrate_1_0_0, mbind, async_mbind, async_bind.
    rewrite reading_run, Hl. cbn. now rewrite Hf. }
  split; [exact H|].
  intros Hne. destruct (truthy data); [reflexivity|].
  rewrite (H eq_refl) in Hne. now contradiction Hne.
Qed.

Lemma migrate_1_0_0_without_legacy_witness :
  let w := boot (<["userList"%string := "[]"%string]> ∅) in
  fst (load "Wavesmainnet" w) = Ok VNull /\
  migrate_1_0_0 w = (Ok tt, w).
Proof.
  intros w. split; [reflexivity|].
  apply (migrate_1_0_0_without_legacy w VNull); reflexivity.
Defined.

End StepTheorems.

(** * The migration runner *)

Module RunnerTheorems.
Import JS Props Storage RunFacts.

Section runner.
Variable WavesApp_version : string.
Variable DASH XMR : string.
Variable tsUtils_set : value -> string -> value -> result value.
Variable tsUtils_unset : value -> string -> result value.

Let table := MIGRATION_MAP DASH XMR tsUtils_set tsUtils_unset.
Let start (data : gmap string string) : result unit * world :=
  constructor WavesApp_version DASH XMR tsUtils_set tsUtils_unset
    (boot data).

Lemma registered_NoDup : List.NoDup (map fst table).
Proof.
  cbn. repeat (apply List.NoDup_cons; [cbn; intuition discriminate|]).
  constructor.
Qed.

Lemma start_upgrade data prior vs :
  reading "lastVersion" data = Ok prior -> truthy prior = true ->
  Migration.migrateFrom prior (map fst table) = Ok vs ->
  exists evs,
    chain_trace vs (fst (start data)) evs /\
    trace (snd (start data)) =
      EvSetItem "lastVersion" WavesApp_version :: evs ++
      match fst (start data) with Ok _ => [EvResolve prior] | _ => [] end /\
    isNewDefer (snd (start data)) =
      match fst (start data) with Ok _ => Some prior | _ => None end /\
    localStorage (snd (start data)) = replay (trace (snd (start data))) data.
Proof.
  intros H Ht Hm.
  exact (construct_upgrade WavesApp_version table
           (quiet_MIGRATION_MAP DASH XMR tsUtils_set tsUtils_unset)
           data prior vs H Ht Hm).
Qed.


(** C2: when a migration step is rejected, the constructor's chain is
    rejected, the deferred behind [onReady] stays pending and is never
    resolved, the rejection is the last thing to happen (no later step
    begins), and no step has begun twice. *)
Theorem rejected_step_blocks_readiness (data : gmap string string)
    (v : string) :
  In (EvStepFailed v) (trace (snd (start data))) ->
  fst (start data) = Throw /\
  onReady (snd (start data)) = None /\
  resolutions (trace (snd (start data))) = [] /\
  (exists evs, trace (snd (start data)) = evs ++ [EvStepFailed v]) /\
  begun (trace (snd (start data))) =
    done_steps (trace (snd (start data))) ++ [v] /\
  List.NoDup (begun (trace (snd (start data)))).
Proof.
  intros Hin.
  destruct (reading "lastVersion" data) as [prior| |] eqn:H.
  - destruct (truthy prior) eqn:Ht.
    + destruct (Migration.migrateFrom prior (map fst table))
        as [vs| |] eqn:Hm.
      * destruct (start_upgrade data prior vs H Ht Hm)
          as (evs & C & T & D & _).
        destruct (chain_trace_shape _ _ _ C) as (R & _ & [rest P] & M).
        assert (Hnd : List.NoDup (begun evs)).
        { pose proof (MigrationFacts.migrateFrom_NoDup _ _ _
                        registered_NoDup Hm) as Hnd.
          rewrite P in Hnd. now apply NoDup_app_remove_r in Hnd. }
        unfold onReady. rewrite T in Hin |- *. rewrite D.
        destruct Hin as [Hin|Hin]; [discriminate|].
        destruct (fst (start data)) as [[]| |].
        -- destruct M as (_ & _ & F).
           apply in_app_or in Hin as [Hin|[Hin|[]]];
             [now destruct (F v)|discriminate].
        -- destruct M as (v' & pre & E & B & F).
           rewrite app_nil_r in Hin |- *.
           rewrite (F v Hin). cbn [begun done_steps resolutions].
           repeat split; trivial.
           exists (EvSetItem "lastVersion" WavesApp_version :: pre).
           now rewrite E.
        -- rewrite app_nil_r in Hin. now destruct (M v).
      * now destruct (migrateFrom_not_Throw prior (map fst table)).
      * unfold start, constructor in Hin. fold table in Hin.
        rewrite (construct_no_path _ table data prior H Ht Hm) in Hin.
        cbn in Hin. destruct Hin as [Hin|[]]. discriminate.
    + unfold start, constructor in Hin. fold table in Hin.
      rewrite (construct_fresh _ table data prior H Ht) in Hin.
      cbn in Hin. destruct Hin as [Hin|[Hin|[]]]; discriminate.
  - now destruct (reading_not_Throw "lastVersion" data).
  - unfold start, constructor in Hin. fold table in Hin.
    rewrite (construct_unmodelled _ table data H) in Hin.
    destruct Hin.
Qed.


(** C4, as the code has it: the current version is written under
    [lastVersion] before any step begins, and the store is what the
    trace makes of it.  At any point after that write, [lastVersion]
    reads as the current version as long as no step has wiped the
    store. *)
Theorem lastVersion_written_before_steps (data : gmap string string) :
  JSON.parse (VStr WavesApp_version) = Throw ->
  let w := snd (start data) in
  localStorage w = replay (trace w) data /\
  (forall before v after,
      trace w = before ++ EvStepBegin v :: after ->
      exists between,
        before = EvSetItem "lastVersion" WavesApp_version :: between) /\
  (forall before after,
      trace w = before ++ after -> before <> [] -> ~ In EvClear before ->
      reading "lastVersion" (replay before data) =
        Ok (VStr WavesApp_version)).
Proof.
  intros Hp. cbn zeta.
  destruct (construct_trace_form WavesApp_version table
              (quiet_MIGRATION_MAP DASH XMR tsUtils_set tsUtils_unset) data)
    as [S F].
  change (start data) with (construct WavesApp_version table (boot data)).
  split; [exact S|].
  destruct F as [E|(rest & E & F)]; rewrite E.
  - split.
    + intros [|e before] v after Hb; discriminate Hb.
    + intros [|e before] after Hb Hne; [now destruct Hne|discriminate Hb].
  - split.
    + intros [|e before] v after Hb; [discriminate Hb|].
      injection Hb as <- _. now exists before.
    + intros [|e before] after Hb Hne Hc; [now destruct Hne|].
      injection Hb as <- Hb.
      apply (reading_text _ _ WavesApp_version); [|exact Hp].
      cbn [replay fold_left apply_event].
      apply replay_keeps_lastVersion;
        [apply lookup_insert_eq| |intros Hin; apply Hc; now right].
      rewrite Hb in F. now apply Forall_app in F as [F _].
Qed.

(** C5, as the code has it: on a fresh install (nothing stored under
    [lastVersion]) the constructor is fulfilled, [onReady] is resolved
    once with [null], the value [load] gives for an absent key, and no
    migration step begins. *)
Theorem fresh_install_resolves_null (data : gmap string string) :
  data !! "lastVersion"%string = None ->
  fst (start data) = Ok tt /\
  onReady (snd (start data)) = Some VNull /\
  resolutions (trace (snd (start data))) = [VNull] /\
  step_events (trace (snd (start data))) = [].
Proof.
  intros H. unfold start, constructor.
  rewrite (construct_fresh _ _ data VNull);
    [now repeat split|now apply reading_absent|reflexivity].
Qed.

End runner.

(** ** The theorems at work *)

Import Examples.


Lemma rejected_step_blocks_readiness_witness :
  In (EvStepFailed "1.0.0-beta.23") (trace (snd (start broken_store))) /\
  fst (start broken_store) = Throw /\
  onReady (snd (start broken_store)) = None.
Proof.
  assert (H : In (EvStepFailed "1.0.0-beta.23")
                (trace (snd (start broken_store)))).
  { right. right. left. reflexivity. }
  split; [exact H|].
  destruct (rejected_step_blocks_readiness "1.0.1" "DASH" "XMR"
              tsUtils_set tsUtils_unset broken_store "1.0.0-beta.23" H)
    as (Hr & Hd & _).
  split; [exact Hr|exact Hd].
Defined.


Lemma lastVersion_written_before_steps_witness :
  JSON.parse (VStr "1.0.1") = Throw /\
  localStorage (snd (start beta_store)) =
    replay (trace (snd (start beta_store))) beta_store.
Proof.
  split; [reflexivity|].
  exact (proj1 (lastVersion_written_before_steps "1.0.1" "DASH" "XMR"
                  tsUtils_set tsUtils_unset beta_store eq_refl)).
Defined.

(** C4 as the spec states it fails: the [1.0.0] step wipes the store, and
    with it the version just written.  On the store with the legacy
    account list the step has begun, [onReady] is resolved, and
    [lastVersion] reads [null], not the current version. *)
Lemma lastVersion_lost_after_wipe :
  let w := snd (start legacy_store) in
  In (EvStepBegin "1.0.0") (trace w) /\
  onReady w = Some (VStr "1.0.0-beta.50") /\
  fst (load "lastVersion" w) = Ok VNull /\
  fst (load "lastVersion" w) <> Ok (VStr "1.0.1").
Proof.
  cbn zeta. split; [right; left; reflexivity|].
  split; [reflexivity|]. split; [reflexivity|].
  vm_compute. discriminate.
Qed.

Lemma fresh_install_resolves_null_witness :
  (∅ : gmap string string) !! "lastVersion"%string = None /\
  onReady (snd (start ∅)) = Some VNull.
Proof.
  split; [reflexivity|].
  exact (proj1 (proj2 (fresh_install_resolves_null "1.0.1" "DASH" "XMR"
                         tsUtils_set tsUtils_unset ∅ eq_refl))).
Defined.

(** C5 as the spec states it fails: on an empty store [onReady] is
    resolved with [null], which is not [undefined]. *)
Lemma fresh_install_is_not_undefined :
  (∅ : gmap string string) !! "lastVersion"%string = None /\
  onReady (snd (start ∅)) = Some VNull /\
  onReady (snd (start ∅)) <> Some VUndefined.
Proof.
  split; [reflexivity|]. split; [reflexivity|].
  vm_compute. discriminate.
Qed.

End RunnerTheorems.

(** * The in-memory store *)

Module ShimTheorems.
Import JS Shim.

Lemma lookup_assign_same name text data :
  lookup name (assign name text data) = Some text.
Proof.
  induction data as [|[k s] data IH]; cbn.
  - now rewrite String.eqb_refl.
  - destruct (String.eqb k name) eqn:E; cbn; now rewrite E.
Qed.

Lemma lookup_assign_other name other text data :
  name <> other ->
  lookup other (assign name text data) = lookup other data.
Proof.
  intros Hne. induction data as [|[k s] data IH]; cbn.
  - destruct (String.eqb_spec name other); [contradiction|reflexivity].
  - destruct (String.eqb_spec k name) as [->|Hk]; cbn.
    + destruct (String.eqb_spec name other); [contradiction|reflexivity].
    + now rewrite IH.
Qed.

Lemma lookup_remove_other name other data :
  name <> other -> lookup other (remove name data) = lookup other data.
Proof.
  intros Hne. induction data as [|[k s] data IH]; cbn; [reflexivity|].
  destruct (String.eqb_spec k name) as [->|Hk]; cbn.
  - destruct (String.eqb_spec name other); [contradiction|reflexivity].
  - now rewrite IH.
Qed.

Lemma lookup_None name data :
  ~ In name (map fst data) -> lookup name data = None.
Proof.
  induction data as [|[k s] data IH]; cbn; [reflexivity|].
  intros H. destruct (String.eqb_spec k name) as [->|Hk].
  - destruct H. now left.
  - apply IH. intros Hin. apply H. now right.
Qed.

Lemma lookup_Some_In name data s :
  lookup name data = Some s -> In name (map fst data).
Proof.
  induction data as [|[k t] data IH]; cbn; [discriminate|].
  destruct (String.eqb_spec k name) as [->|Hk]; [now left|].
  intros H. right. now apply IH.
Qed.

Lemma In_lookup name data :
  In name (map fst data) -> exists s, lookup name data = Some s.
Proof.
  induction data as [|[k t] data IH]; cbn; [easy|].
  destruct (String.eqb_spec k name) as [->|Hk]; [eauto|].
  intros [E|H]; [contradiction|now apply IH].
Qed.

Lemma remove_keys_subset name data k :
  In k (map fst (remove name data)) -> In k (map fst data).
Proof.
  induction data as [|[k' s] data IH]; cbn; [easy|].
  destruct (String.eqb k' name); cbn; [now right|].
  intros [E|H]; [now left|right; now apply IH].
Qed.

Lemma lookup_remove_same name data :
  well_formed data -> lookup name (remove name data) = None.
Proof.
  unfold well_formed.
  induction data as [|[k s] data IH]; cbn; [reflexivity|].
  intros H. apply List.NoDup_cons_iff in H as [Hk Hd].
  destruct (String.eqb_spec k name) as [->|Hne]; cbn.
  - now apply lookup_None.
  - destruct (String.eqb_spec k name); [contradiction|now apply IH].
Qed.

Lemma assign_keys name text data :
  map fst (assign name text data) =
    if existsb (fun k => String.eqb k name) (map fst data)
    then map fst data else map fst data ++ [name].
Proof.
  induction data as [|[k s] data IH]; cbn; [reflexivity|].
  destruct (String.eqb k name); cbn; [reflexivity|].
  rewrite IH. now destruct (existsb _ (map fst data)).
Qed.

Lemma existsb_key_In name keys :
  existsb (fun k => String.eqb k name) keys = true <-> In name keys.
Proof.
  rewrite existsb_exists. split.
  - intros (k & Hk & E). apply String.eqb_eq in E. now subst.
  - intros H. exists name. split; [exact H|apply String.eqb_refl].
Qed.

Lemma well_formed_assign name text data :
  well_formed data -> well_formed (assign name text data).
Proof.
  unfold well_formed. intros H. rewrite assign_keys.
  destruct (existsb _ (map fst data)) eqn:E; [exact H|].
  apply List.NoDup_app; trivial.
  - repeat constructor. easy.
  - intros k Hk [<-|[]]. apply existsb_key_In in Hk. congruence.
Qed.

Lemma well_formed_remove name data :
  well_formed data -> well_formed (remove name data).
Proof.
  unfold well_formed.
  induction data as [|[k s] data IH]; cbn; [trivial|].
  intros H. apply List.NoDup_cons_iff in H as [Hk Hd].
  destruct (String.eqb k name); cbn; [exact Hd|].
  apply List.NoDup_cons_iff. split; [|now apply IH].
  intros Hin. apply Hk. now apply remove_keys_subset in Hin.
Qed.

Lemma to_map_lookup name data : to_map data !! name = lookup name data.
Proof.
  unfold to_map. induction data as [|[k s] data IH]; cbn; [reflexivity|].
  destruct (String.eqb_spec k name) as [->|Hne].
  - apply lookup_insert_eq.
  - rewrite lookup_insert_ne by exact Hne. exact IH.
Qed.

Lemma to_map_assign name text data :
  to_map (assign name text data) = <[name := text]> (to_map data).
Proof.
  apply map_eq. intros k. rewrite to_map_lookup.
  destruct (decide (name = k)) as [->|Hne].
  - now rewrite lookup_assign_same, lookup_insert_eq.
  - rewrite lookup_assign_other, lookup_insert_ne by exact Hne.
    now rewrite to_map_lookup.
Qed.

Lemma to_map_remove name data :
  well_formed data -> to_map (remove name data) = delete name (to_map data).
Proof.
  intros Hwf. apply map_eq. intros k. rewrite to_map_lookup.
  destruct (decide (name = k)) as [->|Hne].
  - now rewrite lookup_remove_same, lookup_delete_eq.
  - rewrite lookup_remove_other, lookup_delete_ne by exact Hne.
    now rewrite to_map_lookup.
Qed.

(** X1: the in-memory store behaves as the key/value map the service is
    followed on: [getItem], [setItem], [removeItem] and [clear] commute
    with reading the object as a map, and they keep each property
    single. *)
Theorem shim_refines_store (name : string) (v : value)
    (data : list (string * string)) :
  well_formed data ->
  getItem name data = LocalStorage.getItem name (to_map data) /\
  to_map (setItem name v data) = LocalStorage.setItem name v (to_map data) /\
  to_map (removeItem name data) =
    LocalStorage.removeItem name (to_map data) /\
  to_map (clear data) = LocalStorage.clear (to_map data) /\
  well_formed (setItem name v data) /\
  well_formed (removeItem name data) /\
  well_formed (clear data).
Proof.
  intros Hwf. repeat split.
  - unfold getItem, LocalStorage.getItem. now rewrite to_map_lookup.
  - apply to_map_assign.
  - now apply to_map_remove.
  - now apply well_formed_assign.
  - now apply well_formed_remove.
  - constructor.
Qed.

Lemma shim_refines_store_witness :
  let data := setItem "lastVersion" (VStr "1.0.1") (setItem "7" VNull []) in
  well_formed data /\
  to_map (removeItem "7" data) = LocalStorage.removeItem "7" (to_map data).
Proof.
  intros data.
  assert (Hwf : well_formed data).
  { repeat constructor; cbn; intuition discriminate. }
  split; [exact Hwf|].
  exact (proj1 (proj2 (proj2
           (shim_refines_store "7" VNull data Hwf)))).
Defined.

(** X2: what [getItem] gives after [setItem(name, value)] is the string
    [String(value)], whatever was passed, and the other names read as
    before. *)
Theorem shim_setItem_getItem (name other : string) (v : value)
    (data : list (string * string)) :
  name <> other ->
  getItem name (setItem name v data) = VStr (ToString v) /\
  getItem other (setItem name v data) = getItem other data.
Proof.
  intros Hne. unfold getItem, setItem.
  now rewrite lookup_assign_same, lookup_assign_other.
Qed.

Lemma shim_setItem_getItem_witness :
  "a"%string <> "b"%string /\
  getItem "a" (setItem "a" VNull [("b"%string, "1"%string)]) = VStr "null" /\
  getItem "b" (setItem "a" VNull [("b"%string, "1"%string)]) = VStr "1".
Proof.
  split; [discriminate|].
  apply (shim_setItem_getItem "a" "b" VNull [("b"%string, "1"%string)]).
  discriminate.
Defined.

(** *** [Object.keys] *)

Lemma insert_index_perm x l : Permutation (insert_index x l) (x :: l).
Proof.
  induction l as [|y l IH]; cbn; [reflexivity|].
  destruct (fst x <=? fst y)%N; [reflexivity|].
  rewrite IH. apply perm_swap.
Qed.

Lemma sort_indices_perm l : Permutation (sort_indices l) l.
Proof.
  induction l as [|x l IH]; cbn; [reflexivity|].
  rewrite insert_index_perm. now constructor.
Qed.

Lemma split_names_perm names :
  Permutation (map snd (indexed names) ++ named names) names.
Proof.
  induction names as [|k names IH]; cbn; [reflexivity|].
  destruct (array_index k); cbn.
  - now constructor.
  - rewrite <- Permutation_middle. now constructor.
Qed.

Lemma Object_keys_perm data : Permutation (Object_keys data) (map fst data).
Proof.
  unfold Object_keys.
  rewrite (Permutation_map snd (sort_indices_perm _)).
  apply split_names_perm.
Qed.

Lemma length_keys data : length data = List.length data.
Proof.
  unfold length.
  rewrite (Permutation_length (Object_keys_perm data)).
  apply length_map.
Qed.

Lemma getItem_present name data :
  getItem name data <> VNull <-> In name (map fst data).
Proof.
  unfold getItem. split.
  - destruct (lookup name data) eqn:E; [|congruence].
    intros _. now apply lookup_Some_In in E.
  - intros H. apply In_lookup in H as [s ->]. discriminate.
Qed.

(** X3: [length] counts the stored names, and [key] enumerates them: an
    index from [0] to [length - 1] gives a stored name, different
    indices give different names, every stored name is found at some
    index, and any other index gives [undefined]. *)
Theorem shim_key_enumerates (data : list (string * string)) :
  well_formed data ->
  length data = List.length data /\
  (forall n, (0 <= n < Z.of_nat (length data))%Z ->
     exists k, key n data = VStr k /\ getItem k data <> VNull) /\
  (forall n m, (0 <= n < Z.of_nat (length data))%Z ->
     (0 <= m)%Z -> key n data = key m data -> n = m) /\
  (forall k, getItem k data <> VNull ->
     exists n, (0 <= n < Z.of_nat (length data))%Z /\ key n data = VStr k) /\
  (forall n, (n < 0 \/ Z.of_nat (length data) <= n)%Z ->
     key n data = VUndefined).
Proof.
  intros Hwf.
  assert (Hnd : List.NoDup (Object_keys data)).
  { eapply Permutation_NoDup;
      [apply Permutation_sym, Object_keys_perm|exact Hwf]. }
  split; [apply length_keys|]. unfold length, key. repeat split.
  - intros n Hn. destruct (Z.ltb_spec n 0); [lia|].
    destruct (nth_error (Object_keys data) (Z.to_nat n)) as [k|] eqn:E.
    + exists k. split; [reflexivity|]. apply getItem_present.
      apply (Permutation_in _ (Object_keys_perm data)).
      eapply nth_error_In, E.
    + apply nth_error_None in E. lia.
  - intros n m Hn Hm.
    destruct (Z.ltb_spec n 0); [lia|]. destruct (Z.ltb_spec m 0); [lia|].
    destruct (nth_error (Object_keys data) (Z.to_nat n)) as [k|] eqn:E;
      [|apply nth_error_None in E; lia].
    destruct (nth_error (Object_keys data) (Z.to_nat m)) as [k'|] eqn:E';
      [|discriminate].
    intros [= <-].
    assert (Z.to_nat n = Z.to_nat m); [|lia].
    apply (proj1 (List.NoDup_nth_error _) Hnd); [lia|congruence].
  - intros k Hk. apply getItem_present in Hk.
    apply (Permutation_in _ (Permutation_sym (Object_keys_perm data))) in Hk.
    apply In_nth_error in Hk as [i Hi].
    exists (Z.of_nat i). split.
    + split; [lia|]. apply Nat2Z.inj_lt.
      apply nth_error_Some. congruence.
    + destruct (Z.ltb_spec (Z.of_nat i) 0); [lia|].
      now rewrite Nat2Z.id, Hi.
  - intros n [Hn|Hn].
    + destruct (Z.ltb_spec n 0); [reflexivity|lia].
    + destruct (Z.ltb_spec n 0); [reflexivity|].
      destruct (nth_error (Object_keys data) (Z.to_nat n)) eqn:E;
        [|reflexivity].
      assert (nth_error (Object_keys data) (Z.to_nat n) <> None)
        by congruence.
      apply nth_error_Some in H0. lia.
Qed.

Lemma shim_key_enumerates_witness :
  let data := setItem "b" (VStr "x")
                (setItem "10" VNull (setItem "2" (VBool true) [])) in
  well_formed data /\ length data = 3%nat.
Proof.
  intros data.
  assert (Hwf : well_formed data).
  { repeat constructor; cbn; intuition discriminate. }
  split; [exact Hwf|].
  exact (proj1 (shim_key_enumerates data Hwf)).
Defined.

Lemma remove_length name data :
  List.length (remove name data) =
    match lookup name data with
    | Some _ => pred (List.length data)
    | None => List.length data
    end.
Proof.
  induction data as [|[k s] data IH]; cbn; [reflexivity|].
  destruct (String.eqb k name); cbn; [reflexivity|].
  rewrite IH. destruct (lookup name data) eqn:E; [|reflexivity].
  destruct data; [discriminate E|reflexivity].
Qed.

(** X4: [setItem] on a name already stored leaves [length] (and the
    order of the keys) as it is and on a new name adds one; [removeItem]
    takes one off when the name is stored and does nothing otherwise;
    after [clear] the length is zero. *)
Theorem shim_length_changes (name : string) (v : value)
    (data : list (string * string)) :
  length (setItem name v data) =
    match getItem name data with
    | VNull => S (length data)
    | _ => length data
    end /\
  (getItem name data <> VNull ->
     Object_keys (setItem name v data) = Object_keys data) /\
  length (removeItem name data) =
    match getItem name data with
    | VNull => length data
    | _ => pred (length data)
    end /\
  length (clear data) = 0%nat.
Proof.
  assert (Hk : existsb (fun k => String.eqb k name) (map fst data) =
               match lookup name data with Some _ => true | None => false end).
  { destruct (lookup name data) eqn:E.
    - apply existsb_key_In. now apply lookup_Some_In in E.
    - destruct (existsb _ (map fst data)) eqn:Ex; [|reflexivity].
      apply existsb_key_In, In_lookup in Ex as [s Hs]. congruence. }
  repeat split.
  - rewrite !length_keys. unfold setItem, getItem.
    rewrite <- (length_map fst (assign _ _ _)), assign_keys, Hk.
    destruct (lookup name data); [apply length_map|].
    rewrite length_app, length_map. cbn. lia.
  - unfold getItem, setItem, Object_keys. rewrite assign_keys, Hk.
    now destruct (lookup name data).
  - rewrite !length_keys. unfold removeItem, getItem.
    rewrite remove_length. now destruct (lookup name data).
Qed.

Lemma shim_length_changes_witness :
  let data := setItem "a" (VStr "1") [] in
  getItem "a" data <> VNull /\
  Object_keys (setItem "a" (VStr "2") data) = Object_keys data /\
  length (setItem "b" VNull data) = 2%nat.
Proof.
  intros data.
  assert (H : getItem "a" data <> VNull) by discriminate.
  split; [exact H|]. split.
  - exact (proj1 (proj2 (shim_length_changes "a" (VStr "2") data)) H).
  - exact (proj1 (shim_length_changes "b" VNull data)).
Defined.

End ShimTheorems.

(** * More of the adapter *)

Module StoreExtras.
Import JS Props StoreProps Storage RunFacts StorageTheorems.

(** What [load] can give: the value of a JSON text, the raw text, or
    [null]. *)
Lemma reading_serializable key data v :
  reading key data = Ok v -> serializable v = true.
Proof.
  rewrite reading_unfold. unfold LocalStorage.getItem.
  destruct (JSON.parse _) as [x| |] eqn:E; try discriminate.
  - intros [= <-]. exact (ParserFacts.parse_serializable _ _ E).
  - destruct (data !! key); now intros [= <-].
Qed.

Lemma load_after_save key other v w :
  fst (load other (snd (save key v w))) =
    reading other (<[key := ToString (stringify v)]> (localStorage w)).
Proof. rewrite save_run. cbn [snd]. now rewrite reading_run. Qed.

Lemma reading_insert_ne key other text data :
  key <> other -> reading other (<[key := text]> data) = reading other data.
Proof.
  intros Hne. rewrite !reading_unfold. unfold LocalStorage.getItem.
  now rewrite lookup_insert_ne.
Qed.


(** X6: [save] under one key leaves what [load] gives for every other
    key as it was. *)
Theorem save_leaves_other_keys (key other : string) (v : value) (w : world) :
  key <> other ->
  fst (load other (snd (save key v w))) = fst (load other w).
Proof.
  intros Hne. rewrite load_after_save, reading_run.
  now apply reading_insert_ne.
Qed.

Lemma save_leaves_other_keys_witness :
  "userList"%string <> "lastVersion"%string /\
  fst (load "lastVersion"
         (snd (save "userList" (VArr []) (boot Examples.beta_store)))) =
    fst (load "lastVersion" (boot Examples.beta_store)).
Proof.
  split; [discriminate|].
  apply (save_leaves_other_keys "userList" "lastVersion" (VArr [])
           (boot Examples.beta_store)).
  discriminate.
Defined.

(** X7: the last [save] under a key wins: the store after two saves
    under the same key is the store after the second alone. *)
Theorem save_overwrites (key : string) (v1 v2 : value) (w : world) :
  localStorage (snd (save key v2 (snd (save key v1 w)))) =
    localStorage (snd (save key v2 w)) /\
  fst (load key (snd (save key v2 (snd (save key v1 w))))) =
    fst (load key (snd (save key v2 w))).
Proof.
  rewrite !load_after_save, !save_run. cbn [snd localStorage].
  now rewrite insert_insert_eq.
Qed.

(** X8: a string that is a JSON text does not come back as saved:
    [load] gives the value the text stands for. *)
Theorem json_string_is_decoded (key s : string) (v : value) (w : world) :
  JSON.parse (VStr s) = Ok v ->
  fst (load key (snd (save key (VStr s) w))) = Ok v.
Proof.
  intros Hp. rewrite load_after_save.
  apply (reading_json _ _ s); [apply lookup_insert_eq|exact Hp].
Qed.

Lemma json_string_is_decoded_witness :
  JSON.parse (VStr "[1,true]") = Ok (VArr [VNum (NInt 1); VBool true]) /\
  fst (load "k" (snd (save "k" (VStr "[1,true]") (boot ∅)))) =
    Ok (VArr [VNum (NInt 1); VBool true]).
Proof.
  split; [reflexivity|].
  apply (json_string_is_decoded "k" "[1,true]"). reflexivity.
Defined.





(** X11: outside the browser [read] adds no rejection to the bridge's,
    and what the bridge answers for a key comes back as it is when it is
    not a JSON text: a bridge that answers [undefined] for an absent key
    makes [read] answer [undefined], where [localStorage] makes it
    answer [null]. *)
Theorem bridge_read_passes_through
    (readStorage : string -> async value) (key : string) (w w' : world)
    (res : value) :
  readStorage key w = (Ok res, w') ->
  fst (Bridge.read readStorage key w) <> Throw /\
  snd (Bridge.read readStorage key w) = w' /\
  (JSON.parse res = Throw -> Bridge.read readStorage key w = (Ok res, w')) /\
  (res = VUndefined -> Bridge.read readStorage key w = (Ok VUndefined, w')).
Proof.
  intros H. unfold Bridge.read, mbind, async_mbind, async_bind.
  rewrite H. repeat split.
  - destruct (JSON.parse res); discriminate.
  - now destruct (JSON.parse res).
  - now intros ->.
  - now intros ->.
Qed.

Lemma bridge_read_passes_through_witness :
  let readStorage : string -> async value :=
    fun _ w => (Ok VUndefined, w) in
  readStorage "lastVersion" (boot ∅) = (Ok VUndefined, boot ∅) /\
  Bridge.read readStorage "lastVersion" (boot ∅) = (Ok VUndefined, boot ∅).
Proof.
  intros readStorage. split; [reflexivity|].
  exact (proj2 (proj2 (proj2
           (bridge_read_passes_through readStorage "lastVersion"
              (boot ∅) (boot ∅) VUndefined eq_refl))) eq_refl).
Defined.

End StoreExtras.

(** * More of the migration steps *)

Module StepExtras.
Import JS Props StoreProps Storage RunFacts StorageTheorems StepTheorems.
Import StoreExtras.

Lemma list_step_cases rebuild w :
  list_step rebuild w =
    match reading "userList" (localStorage w) with
    | Ok list =>
        match rebuild list with
        | Ok l => save "userList" (VArr l) w
        | Throw => (Throw, w)
        | Unmodelled => (Unmodelled, w)
        end
    | Throw => (Throw, w)
    | Unmodelled => (Unmodelled, w)
    end.
Proof.
  unfold list_step, mbind, async_mbind, async_bind. rewrite reading_run.
  destruct (reading "userList" (localStorage w)) as [list| |];
    [|reflexivity..].
  unfold lift. now destruct (rebuild list).
Qed.

Lemma migrate_1_0_0_cases w :
  migrate_1_0_0 w =
    match reading "Wavesmainnet" (localStorage w) with
    | Ok data =>
        if truthy data then
          match (accounts ← get_prop data "accounts";
                 l ← as_array accounts;
                 traverse user_of_account l) with
          | Ok users => save "userList" (VArr users) (snd (clear w))
          | Throw => (Throw, w)
          | Unmodelled => (Unmodelled, w)
          end
        else (Ok tt, w)
    | Throw => (Throw, w)
    | Unmodelled => (Unmodelled, w)
    end.
Proof.
  unfold migrate_1_0_0, mbind at 1, async_mbind, async_bind.
  rewrite reading_run.
  destruct (reading "Wavesmainnet" (localStorage w)) as [data| |]; trivial.
  destruct (truthy data); cbn [negb]; [|reflexivity].
  unfold mbind at 1, lift.
  now destruct (_ : result (list value)).
Qed.

Lemma traverse_length {A B} (f : A -> result B) l : forall l',
  traverse f l = Ok l' -> List.length l' = List.length l.
Proof.
  induction l as [|x l IH]; cbn [traverse]; intros l' H.
  - now injection H as <-.
  - destruct (f x) as [y| |]; try discriminate H. cbn in H.
    destruct (traverse f l) as [ys| |]; try discriminate H. cbn in H.
    injection H as <-. cbn. now rewrite (IH ys).
Qed.

Lemma traverse_forallb {A B} (f : A -> result B)
    (P : A -> bool) (Q : B -> bool) l :
  (forall x y, f x = Ok y -> P x = true -> Q y = true) ->
  forall l', traverse f l = Ok l' ->
  forallb P l = true -> forallb Q l' = true.
Proof.
  intros Hf. induction l as [|x l IH]; cbn [traverse]; intros l' H Hp.
  - now injection H as <-.
  - destruct (f x) as [y| |] eqn:E; try discriminate H. cbn in H.
    destruct (traverse f l) as [ys| |]; try discriminate H. cbn in H.
    injection H as <-. cbn in Hp |- *.
    apply andb_true_iff in Hp as [Hx Hl].
    now rewrite (Hf x y E Hx), (IH ys).
Qed.

Lemma get_own_forallb (P : value -> bool) props name v :
  forallb (fun kv => P (snd kv)) props = true ->
  get_own props name = Some v -> P v = true.
Proof.
  induction props as [|[k w] props IH]; cbn; [discriminate|].
  intros H. apply andb_true_iff in H as [Hw Hp].
  destruct (String.eqb k name); [now intros [= <-]|now apply IH].
Qed.

Lemma serializable_set_own props name v :
  serializable (VObj props) = true -> serializable v = true ->
  serializable (VObj (set_own props name v)) = true.
Proof.
  cbn [serializable]. rewrite !andb_true_iff. intros [Ha Hu] Hv. split.
  - now apply (ParserFacts.set_own_forallb serializable).
  - now apply ParserFacts.set_own_unique.
Qed.

(** The callback of [addNewGateway] keeps a record writable. *)
Lemma addNewGateway_user_serializable gateway user user' :
  addNewGateway_user gateway user = Ok user' ->
  serializable user = true -> serializable user' = true.
Proof.
  unfold addNewGateway_user.
  destruct user as [| |b|n|s|l|props]; cbn [get_prop mbind result_bind rbind];
    try discriminate; try (cbn; now intros [= <-]).
  destruct (get_own props "settings") as [st|] eqn:Est;
    cbn [mbind result_bind rbind]; [|cbn; now intros [= <-]].
  destruct (truthy st) eqn:Hst; [|cbn; now intros [= <-]].
  destruct st as [| |b|n|s|l|sprops]; try (cbn; now intros [= <-]);
    try discriminate Hst.
  cbn [get_prop].
  destruct (get_own sprops "pinnedAssetIdList") as [ids|] eqn:Eids;
    cbn [mbind result_bind rbind]; [|cbn; now intros [= <-]].
  destruct (truthy ids) eqn:Hids; [|now intros [= <-]].
  destruct (includes ids gateway) as [[|]| |];
    cbn [mbind result_bind rbind negb]; try discriminate;
    [now intros [= <-]|].
  destruct ids as [| |b|n|s|l|o]; try discriminate.
  cbn [push mbind result_bind rbind set_prop]. intros [= <-] Hs.
  pose proof Hs as Hs'. cbn [serializable] in Hs'.
  apply andb_true_iff in Hs' as [Hp _].
  pose proof (get_own_forallb serializable _ _ _ Hp Est) as Hsp.
  pose proof Hsp as Hsp'. cbn [serializable] in Hsp'.
  apply andb_true_iff in Hsp' as [Hq _].
  pose proof (get_own_forallb serializable _ _ _ Hq Eids) as Hl.
  apply serializable_set_own; [exact Hs|].
  apply serializable_set_own; [exact Hsp|].
  cbn [serializable] in Hl |- *. rewrite forallb_app, Hl. reflexivity.
Qed.

Lemma reading_written key data v :
  typeof v <> TString -> serializable v = true ->
  reading key (<[key := ToString (stringify v)]> data) = Ok v.
Proof.
  intros Ht Hs.
  apply (reading_json _ _ (ToString (stringify v)));
    [apply lookup_insert_eq|].
  rewrite (stringify_text v Ht Hs).
  unfold JSON.parse. cbn [ToString]. unfold chars.
  rewrite list_ascii_of_string_of_list_ascii.
  now apply JSONFacts.parse_text_print.
Qed.

Section steps.
Variable DASH XMR : string.
Variable tsUtils_set : value -> string -> value -> result value.
Variable tsUtils_unset : value -> string -> result value.

Let table := MIGRATION_MAP DASH XMR tsUtils_set tsUtils_unset.

Lemma list_steps kf :
  In kf table -> fst kf <> "1.0.0"%string ->
  exists rebuild,
    snd kf = list_step rebuild /\
    forall list, is_array list = false -> list <> VUndefined ->
                 rebuild list = Throw.
Proof.
  assert (Hr : forall (f : value -> result value) list,
            is_array list = false -> list <> VUndefined ->
            (l ← as_array (default_arg list (VArr [])); traverse f l)
            = Throw).
  { intros f list Ha Hu. destruct list; try discriminate Ha;
      try reflexivity. now destruct Hu. }
  intros [<-|[<-|[<-|[<-|[<-|[]]]]]] Hk; [now destruct Hk|..];
    eexists; (split; [reflexivity|]); intros list; apply Hr.
Qed.

(** X12: every migration step is all or nothing: when its promise is
    not fulfilled, it has written and wiped nothing. *)
Theorem step_is_all_or_nothing (kf : string * async unit) (w : world) :
  In kf table ->
  fst (snd kf w) <> Ok tt ->
  snd (snd kf w) = w.
Proof.
  intros Hin Hr. destruct (string_dec (fst kf) "1.0.0") as [Hk|Hk].
  - assert (snd kf = migrate_1_0_0) as E.
    { destruct Hin as [<-|[<-|[<-|[<-|[<-|[]]]]]]; try discriminate Hk.
      reflexivity. }
    rewrite E in Hr |- *. rewrite migrate_1_0_0_cases in Hr |- *.
    destruct (reading "Wavesmainnet" (localStorage w)) as [data| |]; trivial.
    destruct (truthy data); trivial.
    destruct (_ : result (list value)); trivial.
    now destruct Hr.
  - destruct (list_steps kf Hin Hk) as (rebuild & E & _).
    rewrite E in Hr |- *. rewrite list_step_cases in Hr |- *.
    destruct (reading "userList" (localStorage w)) as [list| |]; trivial.
    destruct (rebuild list); trivial. now destruct Hr.
Qed.

(** X13: the steps over [userList] are rejected, with nothing written,
    whenever what is stored under [userList] does not load as an array.
    An absent key is such a case: it loads as [null], and the default
    [[]] of the callback replaces [undefined] only. *)
Theorem list_steps_reject_without_a_list (kf : string * async unit)
    (w : world) (list : value) :
  In kf table -> fst kf <> "1.0.0"%string ->
  fst (load "userList" w) = Ok list ->
  is_array list = false ->
  snd kf w = (Throw, w).
Proof.
  intros Hin Hk Hl Ha. rewrite reading_run in Hl. cbn [fst] in Hl.
  destruct (list_steps kf Hin Hk) as (rebuild & -> & Hr).
  rewrite list_step_cases, Hl, Hr; trivial.
  intros ->. apply reading_serializable in Hl. discriminate Hl.
Qed.

(** X14: a step other than [1.0.0] touches no key but [userList], and
    leaves the deferred behind [onReady] and [state.lastOpenVersion]
    alone. *)
Theorem list_steps_touch_userList_only (kf : string * async unit)
    (w : world) (key : string) :
  In kf table -> fst kf <> "1.0.0"%string ->
  key <> "userList"%string ->
  localStorage (snd (snd kf w)) !! key = localStorage w !! key /\
  isNewDefer (snd (snd kf w)) = isNewDefer w /\
  lastOpenVersion (snd (snd kf w)) = lastOpenVersion w.
Proof.
  intros Hin Hk Hne.
  destruct (list_steps kf Hin Hk) as (rebuild & -> & _).
  rewrite list_step_cases.
  destruct (reading "userList" (localStorage w)) as [list| |];
    try (now repeat split).
  destruct (rebuild list); try (now repeat split).
  rewrite save_run. cbn. now rewrite lookup_insert_ne.
Qed.

End steps.

Lemma step_is_all_or_nothing_witness :
  let kf := ("1.0.0-beta.23"%string,
             migrate_1_0_0_beta_23 Examples.tsUtils_set) in
  let w := boot Examples.broken_store in
  In kf (MIGRATION_MAP "DASH" "XMR" Examples.tsUtils_set
           Examples.tsUtils_unset) /\
  fst (snd kf w) <> Ok tt /\
  snd (snd kf w) = w.
Proof.
  intros kf w.
  assert (Hin : In kf (MIGRATION_MAP "DASH" "XMR" Examples.tsUtils_set
                         Examples.tsUtils_unset))
    by (right; left; reflexivity).
  assert (Hr : fst (snd kf w) <> Ok tt) by (vm_compute; discriminate).
  split; [exact Hin|]. split; [exact Hr|].
  exact (step_is_all_or_nothing "DASH" "XMR" Examples.tsUtils_set
           Examples.tsUtils_unset kf w Hin Hr).
Defined.

Lemma list_steps_reject_without_a_list_witness :
  let kf := ("1.0.0-beta.35"%string, addNewGateway "DASH") in
  let w := boot Examples.broken_store in
  fst (load "userList" w) = Ok VNull /\
  snd kf w = (Throw, w).
Proof.
  intros kf w.
  assert (Hl : fst (load "userList" w) = Ok VNull) by reflexivity.
  split; [exact Hl|].
  apply (list_steps_reject_without_a_list "DASH" "XMR" Examples.tsUtils_set
           Examples.tsUtils_unset kf w VNull);
    [right; right; left; reflexivity|discriminate|exact Hl|reflexivity].
Defined.

Lemma list_steps_touch_userList_only_witness :
  let kf := ("1.0.0-beta.40"%string, addNewGateway "XMR") in
  let w := boot Examples.beta_store in
  localStorage (snd (snd kf w)) !! "lastVersion"%string =
    localStorage w !! "lastVersion"%string.
Proof.
  intros kf w.
  apply (list_steps_touch_userList_only "DASH" "XMR" Examples.tsUtils_set
           Examples.tsUtils_unset kf w "lastVersion");
    [right; right; right; left; reflexivity|discriminate|discriminate].
Defined.

Lemma traverse_user_of_account accounts :
  Forall (fun a => a <> VNull /\ a <> VUndefined) accounts ->
  traverse user_of_account accounts = Ok (map converted accounts).
Proof.
  induction accounts as [|a accounts IH]; intros H; [reflexivity|].
  apply Forall_cons_1 in H as [[Hn Hu] H].
  cbn [traverse map]. rewrite (IH H).
  unfold user_of_account, converted, field.
  destruct a as [| |b|n|s|l|props]; try reflexivity;
    [now destruct Hu|now destruct Hn|].
  cbn. now destruct (get_own props "address"), (get_own props "cipher").
Qed.

(** X15: with legacy data whose [accounts] is an array of records, the
    [1.0.0] step is fulfilled and leaves a store with one key only:
    [userList], holding one converted record per account, in order.
    Every other key is gone. *)
Theorem migrate_1_0_0_converts (w : world) (data : value)
    (accounts : list value) :
  fst (load "Wavesmainnet" w) = Ok data ->
  truthy data = true ->
  get_prop data "accounts" = Ok (VArr accounts) ->
  Forall (fun a => a <> VNull /\ a <> VUndefined) accounts ->
  let text := ToString (stringify (VArr (map converted accounts))) in
  fst (migrate_1_0_0 w) = Ok tt /\
  localStorage (snd (migrate_1_0_0 w)) = {[ "userList"%string := text ]} /\
  trace (snd (migrate_1_0_0 w)) =
    trace w ++ [EvClear; EvSetItem "userList" text] /\
  (forall key, key <> "userList"%string ->
     fst (load key (snd (migrate_1_0_0 w))) = Ok VNull).
Proof.
  intros Hl Ht Ha Hf. cbn zeta.
  rewrite reading_run in Hl. cbn [fst] in Hl.
  rewrite migrate_1_0_0_cases, Hl, Ht, Ha.
  cbn [mbind result_bind rbind as_array].
  rewrite (traverse_user_of_account _ Hf).
  rewrite clear_run, save_run. cbn [fst snd localStorage trace].
  repeat split.
  - now rewrite <- app_assoc.
  - intros key Hne. rewrite reading_run. cbn [fst localStorage].
    apply reading_absent. rewrite lookup_insert_ne by congruence.
    apply lookup_empty.
Qed.

Lemma migrate_1_0_0_converts_witness :
  let w := boot Examples.legacy_store in
  fst (load "Wavesmainnet" w) = Ok Examples.legacy_accounts /\
  fst (migrate_1_0_0 w) = Ok tt /\
  fst (load "lastVersion" (snd (migrate_1_0_0 w))) = Ok VNull.
Proof.
  intros w.
  assert (H : fst (load "Wavesmainnet" w) = Ok Examples.legacy_accounts)
    by reflexivity.
  split; [exact H|].
  assert (Hf : Forall (fun a => a <> VNull /\ a <> VUndefined)
                 [VObj [("address"%string, VStr "3PAbc");
                        ("cipher"%string, VStr "U2FsdGVk")]]).
  { repeat constructor; discriminate. }
  destruct (migrate_1_0_0_converts w Examples.legacy_accounts _ H
              eq_refl eq_refl Hf) as (Hr & _ & _ & Hk).
  split; [exact Hr|]. apply Hk. discriminate.
Defined.

Lemma addNewGateway_as_list_step gateway :
  addNewGateway gateway =
    list_step (fun users =>
                 l ← as_array (default_arg users (VArr []));
                 traverse (addNewGateway_user gateway) l).
Proof. reflexivity. Qed.

(** What a fulfilled gateway step has read and written. *)
Lemma addNewGateway_fulfilled gateway w :
  fst (addNewGateway gateway w) = Ok tt ->
  exists users users',
    reading "userList" (localStorage w) = Ok (VArr users) /\
    traverse (addNewGateway_user gateway) users = Ok users' /\
    serializable (VArr users') = true /\
    addNewGateway gateway w = save "userList" (VArr users') w.
Proof.
  rewrite addNewGateway_as_list_step, list_step_cases.
  destruct (reading "userList" (localStorage w)) as [list| |] eqn:Hl;
    try discriminate.
  pose proof (reading_serializable _ _ _ Hl) as Hs.
  destruct list as [| |b|n|s|users|o]; try discriminate.
  cbn [default_arg as_array mbind result_bind rbind].
  destruct (traverse (addNewGateway_user gateway) users) as [users'| |] eqn:E;
    try discriminate.
  intros _. exists users, users'. repeat split; trivial.
  cbn [serializable] in Hs |- *.
  exact (traverse_forallb _ _ _ _
           (addNewGateway_user_serializable gateway) _ E Hs).
Qed.

(** X16: after a fulfilled gateway step, [userList] loads as the list of
    the records its callback returned, one per user and in the same
    order. *)
Theorem addNewGateway_rewrites_the_list (gateway : string) (w : world) :
  fst (addNewGateway gateway w) = Ok tt ->
  exists users users',
    fst (load "userList" w) = Ok (VArr users) /\
    traverse (addNewGateway_user gateway) users = Ok users' /\
    List.length users' = List.length users /\
    fst (load "userList" (snd (addNewGateway gateway w))) = Ok (VArr users').
Proof.
  intros H.
  destruct (addNewGateway_fulfilled gateway w H)
    as (users & users' & Hl & Ht & Hs & ->).
  exists users, users'. rewrite reading_run. cbn [fst].
  repeat split; trivial; [exact (traverse_length _ _ _ Ht)|].
  rewrite load_after_save. now apply reading_written.
Qed.

Lemma addNewGateway_rewrites_the_list_witness :
  let w := boot Examples.beta_store in
  fst (addNewGateway "DASH" w) = Ok tt /\
  exists users users',
    fst (load "userList" w) = Ok (VArr users) /\
    traverse (addNewGateway_user "DASH") users = Ok users' /\
    List.length users' = List.length users /\
    fst (load "userList" (snd (addNewGateway "DASH" w))) = Ok (VArr users').
Proof.
  intros w.
  assert (H : fst (addNewGateway "DASH" w) = Ok tt) by reflexivity.
  split; [exact H|].
  exact (addNewGateway_rewrites_the_list "DASH" w H).
Defined.

(** X17: the gateway step is idempotent on the store: run again after a
    fulfilled run, it is fulfilled and leaves the store as the first run
    left it. *)
Theorem addNewGateway_twice (gateway : string) (w : world) :
  fst (addNewGateway gateway w) = Ok tt ->
  let once := snd (addNewGateway gateway w) in
  fst (addNewGateway gateway once) = Ok tt /\
  localStorage (snd (addNewGateway gateway once)) = localStorage once.
Proof.
  intros H. cbn zeta.
  destruct (addNewGateway_fulfilled gateway w H)
    as (users & users' & Hl & Ht & Hs & ->).
  rewrite addNewGateway_as_list_step, list_step_cases.
  rewrite save_run. cbn [snd localStorage].
  rewrite reading_written by (trivial; discriminate).
  cbn [default_arg as_array mbind result_bind rbind].
  rewrite (addNewGateway_users_idempotent _ _ _ Ht).
  rewrite save_run. cbn [fst snd localStorage].
  split; [reflexivity|]. apply insert_insert_eq.
Qed.

Lemma addNewGateway_twice_witness :
  let w := boot Examples.beta_store in
  fst (addNewGateway "DASH" w) = Ok tt /\
  localStorage (snd (addNewGateway "DASH" (snd (addNewGateway "DASH" w)))) =
    localStorage (snd (addNewGateway "DASH" w)).
Proof.
  intros w.
  assert (H : fst (addNewGateway "DASH" w) = Ok tt) by reflexivity.
  split; [exact H|].
  exact (proj2 (addNewGateway_twice "DASH" w H)).
Defined.

Lemma get_own_set_own_other props k v name :
  k <> name -> get_own (set_own props k v) name = get_own props name.
Proof.
  intros Hne. induction props as [|[k' w] props IH]; cbn.
  - destruct (String.eqb_spec k name); [contradiction|reflexivity].
  - destruct (String.eqb_spec k' k) as [->|Hk]; cbn.
    + destruct (String.eqb_spec k name); [contradiction|reflexivity].
    + now rewrite IH.
Qed.

(** X18: the callback of the gateway step touches nothing but the pinned
    list: every other property of the record, and every other setting,
    reads after it as before. *)
Theorem addNewGateway_user_leaves_the_rest (gateway : string)
    (user user' : value) (name : string) :
  addNewGateway_user gateway user = Ok user' ->
  (name <> "settings"%string -> get_prop user' name = get_prop user name) /\
  (name <> "pinnedAssetIdList"%string ->
   field (field user' "settings") name = field (field user "settings") name).
Proof.
  unfold addNewGateway_user.
  destruct user as [| |b|n|s|l|props]; cbn [get_prop mbind result_bind rbind];
    try discriminate; try (cbn; now intros [= <-]).
  destruct (get_own props "settings") as [st|] eqn:Est;
    cbn [mbind result_bind rbind]; [|cbn; now intros [= <-]].
  destruct (truthy st) eqn:Hst; [|cbn; now intros [= <-]].
  destruct st as [| |b|n|s|l|sprops]; try (cbn; now intros [= <-]);
    try discriminate Hst.
  cbn [get_prop].
  destruct (get_own sprops "pinnedAssetIdList") as [ids|] eqn:Eids;
    cbn [mbind result_bind rbind]; [|cbn; now intros [= <-]].
  destruct (truthy ids) eqn:Hids; [|now intros [= <-]].
  destruct (includes ids gateway) as [[|]| |];
    cbn [mbind result_bind rbind negb]; try discriminate;
    [now intros [= <-]|].
  destruct ids as [| |b|n|s|l|o]; try discriminate.
  cbn [push mbind result_bind rbind set_prop]. intros [= <-]. split.
  - intros Hne. cbn [get_prop].
    rewrite get_own_set_own_other by congruence. reflexivity.
  - intros Hne. unfold field. cbn [get_prop].
    rewrite get_own_set_own, Est. cbn [get_prop].
    rewrite get_own_set_own_other by congruence. reflexivity.
Qed.

Lemma addNewGateway_user_leaves_the_rest_witness :
  let user := Examples.beta_user in
  exists user',
    addNewGateway_user "DASH" user = Ok user' /\
    get_prop user' "address" = get_prop user "address" /\
    field (field user' "settings") "dex" = field (field user "settings") "dex".
Proof.
  intros user. eexists. split; [reflexivity|].
  split.
  - apply (addNewGateway_user_leaves_the_rest "DASH" user _ "address");
      [reflexivity|discriminate].
  - apply (addNewGateway_user_leaves_the_rest "DASH" user _ "dex");
      [reflexivity|discriminate].
Defined.

End StepExtras.

(** * More of the constructor *)

Module RunnerExtras.
Import JS Props StoreProps Storage RunFacts.

(** X19: a stored version that is falsy (the texts [0], [false], [null]
    or the empty text, as much as an absent key) is a first run: the
    constructor writes the current version, sets
    [state.lastOpenVersion] to what it loaded, resolves [onReady] with
    it, and begins no step. *)
Theorem first_run_on_falsy_version
    (WavesApp_version DASH XMR : string)
    (tsUtils_set : value -> string -> value -> result value)
    (tsUtils_unset : value -> string -> result value)
    (data : gmap string string) (prior : value) :
  fst (load "lastVersion" (boot data)) = Ok prior ->
  truthy prior = false ->
  constructor WavesApp_version DASH XMR tsUtils_set tsUtils_unset
    (boot data) =
    (Ok tt,
     World (<["lastVersion"%string := WavesApp_version]> data)
       (Some prior) (Some prior)
       [EvSetItem "lastVersion" WavesApp_version; EvResolve prior]).
Proof.
  intros Hl Hf. rewrite reading_run in Hl. cbn [fst boot localStorage] in Hl.
  unfold constructor. now apply construct_fresh.
Qed.

Lemma first_run_on_falsy_version_witness :
  let data : gmap string string := {[ "lastVersion"%string := "0"%string ]} in
  fst (load "lastVersion" (boot data)) = Ok (VNum (NInt 0)) /\
  onReady (snd (Examples.start data)) = Some (VNum (NInt 0)).
Proof.
  intros data.
  assert (H : fst (load "lastVersion" (boot data)) = Ok (VNum (NInt 0)))
    by reflexivity.
  split; [exact H|].
  unfold Examples.start.
  now rewrite (first_run_on_falsy_version "1.0.1" "DASH" "XMR"
                 Examples.tsUtils_set Examples.tsUtils_unset data _ H eq_refl).
Defined.

End RunnerExtras.
